(** * ABCU advising program (Project_Two.cpp): the AVL course store

    A shallow embedding of [src/Project_Two/Project_Two.cpp]: the string
    utilities, the record parser, the AVL tree keyed by course number
    (insert with the four rotation cases, find, in-order listing) and the
    course report, followed by the properties of the specification.

    Conventions of the embedding.
    - [std::string] is [string]; [operator<] and [operator>] on
      [std::string] compare bytes as unsigned values, lexicographically,
      a proper prefix being smaller: this is [String.compare].
    - An [AVLNode*] is a value of [AVLNode]: [Null] for [nullptr], [Node]
      for an allocated node.  Every node has one owner, so the in-place
      updates of the source are rebuilt nodes here.
    - [int] heights are in [Z].  A height is at most the number of nodes,
      so [1 + max] stays far inside the range of [int] for every tree
      that fits in memory.
    - Reading a field through a null pointer is the only fault of the
      tree code; the functions that may do so return [option], [None]
      being the fault. *)

From Stdlib Require Import ZArith List String Ascii Bool Lia Sorted Permutation.
From Stdlib Require Import Reals Lra DecimalString.
Import ListNotations.
Local Open Scope string_scope.
Local Open Scope list_scope.
Local Open Scope Z_scope.

Set Implicit Arguments.

(* ================================================================== *)
(** ** The order on keys *)

Module Key.

(** [a < b] on [std::string]. *)
Definition ltb (a b : string) : bool := String.ltb a b.

(** [a > b] on [std::string]. *)
Definition gtb (a b : string) : bool :=
  match String.compare a b with Gt => true | _ => false end.

Definition lt (a b : string) : Prop := String.compare a b = Lt.

(** The three branches of a key comparison in the source: the outcomes
    of [a < b] and [a > b]. *)
Inductive Cmp (a b : string) : bool -> bool -> Prop :=
| CmpLt : lt a b -> Cmp a b true false
| CmpGt : lt b a -> Cmp a b false true
| CmpEq : a = b -> Cmp a b false false.

End Key.

(* ================================================================== *)
(** ** Data model *)

Record Course : Type := mkCourse {
  number : string;
  title : string;
  prerequisites : list string
}.

Inductive AVLNode : Type :=
| Null : AVLNode
| Node (key : string) (value : Course) (height : Z) (left right : AVLNode).

(** The constructor [AVLNode(k, v)]: a leaf of height 1. *)
Definition newNode (k : string) (v : Course) : AVLNode := Node k v 1 Null Null.

(** A small error monad for the pointer reads. *)
Definition bind {A B : Type} (m : option A) (f : A -> option B) : option B :=
  match m with
  | Some a => f a
  | None => None
  end.

Notation "x <- m ;; f" := (bind m (fun x => f))
  (at level 61, m at next level, right associativity).

(* ================================================================== *)
(** ** String utilities *)

Definition dquote : ascii := ascii_of_nat 34.
Definition comma : ascii := ascii_of_nat 44.

(** [std::isspace] in the "C" locale: space, and the controls
    ['\t'] ['\n'] ['\v'] ['\f'] ['\r']. *)
Definition isspace (c : ascii) : bool :=
  let n := N_of_ascii c in
  ((n =? 32) || ((9 <=? n) && (n <=? 13)))%N.

(** [std::toupper] in the "C" locale. *)
Definition toupper (c : ascii) : ascii :=
  let n := N_of_ascii c in
  if ((97 <=? n) && (n <=? 122))%N then ascii_of_N (n - 32) else c.

Definition isEmpty (s : string) : bool :=
  match s with
  | EmptyString => true
  | String _ _ => false
  end.

(** The first loop of [trim]: [start] moves past the leading spaces. *)
Fixpoint skipLeading (s : string) : string :=
  match s with
  | EmptyString => EmptyString
  | String c rest => if isspace c then skipLeading rest else s
  end.

(** The second loop of [trim]: [end] moves back over the trailing
    spaces, never below [start]. *)
Fixpoint dropTrailing (s : string) : string :=
  match s with
  | EmptyString => EmptyString
  | String c rest =>
      let rest' := dropTrailing rest in
      if isspace c && isEmpty rest' then EmptyString else String c rest'
  end.

Definition trim (s : string) : string := dropTrailing (skipLeading s).

(** [s.front()] and [s.back()], read only when [s] has a character. *)
Definition front (s : string) : option ascii := String.get 0 s.

Definition back (s : string) : option ascii :=
  String.get (String.length s - 1) s.

Definition isChar (c : ascii) (o : option ascii) : bool :=
  match o with
  | Some c' => Ascii.eqb c' c
  | None => false
  end.

Definition stripQuotes (s : string) : string :=
  if (2 <=? String.length s)%nat && isChar dquote (front s)
     && isChar dquote (back s)
  then String.substring 1 (String.length s - 2) s
  else s.

Fixpoint toUpper (s : string) : string :=
  match s with
  | EmptyString => EmptyString
  | String c rest => String (toupper c) (toUpper rest)
  end.

Definition push_back (s : string) (c : ascii) : string :=
  (s ++ String c EmptyString)%string.

(** [splitCSVLine], from position [i] on: [line] is what is left of the
    line, [field] and [inQuotes] the loop's variables. *)
Fixpoint splitCSVFrom (line field : string) (inQuotes : bool) : list string :=
  match line with
  | EmptyString => [field]
  | String c rest =>
      if Ascii.eqb c dquote then
        match rest with
        | String c' rest' =>
            if inQuotes && Ascii.eqb c' dquote
            then splitCSVFrom rest' (push_back field dquote) inQuotes
            else splitCSVFrom rest field (negb inQuotes)
        | EmptyString => splitCSVFrom rest field (negb inQuotes)
        end
      else if Ascii.eqb c comma && negb inQuotes then
        field :: splitCSVFrom rest EmptyString inQuotes
      else splitCSVFrom rest (push_back field c) inQuotes
  end.

Definition splitCSVLine (line : string) : list string :=
  splitCSVFrom line EmptyString false.

(** The lambda [flush] of [splitPrereqTokens], as the tokens it adds. *)
Definition flush (token : string) : list string :=
  let t := trim token in
  if isEmpty t then [] else [t].

Definition isDelimiter (c : ascii) : bool :=
  isspace c || Ascii.eqb c "|" || Ascii.eqb c ";" || Ascii.eqb c ",".

Fixpoint splitPrereqFrom (s token : string) : list string :=
  match s with
  | EmptyString => flush token
  | String c rest =>
      if isDelimiter c then flush token ++ splitPrereqFrom rest EmptyString
      else splitPrereqFrom rest (push_back token c)
  end.

Definition splitPrereqTokens (s : string) : list string :=
  splitPrereqFrom s EmptyString.

(** [std::sort] over strings with [operator<]: the result is the
    ascending arrangement of the elements, here built by insertion. *)
Fixpoint insertSorted (x : string) (l : list string) : list string :=
  match l with
  | [] => [x]
  | y :: rest => if Key.ltb y x then y :: insertSorted x rest else x :: l
  end.

Definition sort (l : list string) : list string :=
  fold_right insertSorted [] l.

(** [std::unique] followed by [erase]: one element of every run of equal
    neighbours is kept. *)
Fixpoint unique (l : list string) : list string :=
  match l with
  | [] => []
  | x :: rest =>
      match rest with
      | [] => [x]
      | y :: _ => if String.eqb x y then unique rest else x :: unique rest
      end
  end.

(* ================================================================== *)
(** ** Height bookkeeping and rotations *)

Definition nodeHeight (n : AVLNode) : Z :=
  match n with
  | Null => 0
  | Node _ _ h _ _ => h
  end.

Definition balanceFactor (n : AVLNode) : Z :=
  match n with
  | Null => 0
  | Node _ _ _ l r => nodeHeight l - nodeHeight r
  end.

Definition updateHeight (n : AVLNode) : AVLNode :=
  match n with
  | Null => Null
  | Node k v _ l r => Node k v (1 + Z.max (nodeHeight l) (nodeHeight r)) l r
  end.

(** [rotateRight(y)]: [x = y->left] and [T2 = x->right] are read through
    [y] and [x]; either being null is a fault. *)
Definition rotateRight (y : AVLNode) : option AVLNode :=
  match y with
  | Null => None
  | Node ky vy hy x c =>
      match x with
      | Null => None
      | Node kx vx hx a T2 =>
          let y' := updateHeight (Node ky vy hy T2 c) in
          Some (updateHeight (Node kx vx hx a y'))
      end
  end.

Definition rotateLeft (x : AVLNode) : option AVLNode :=
  match x with
  | Null => None
  | Node kx vx hx a y =>
      match y with
      | Null => None
      | Node ky vy hy T2 c =>
          let x' := updateHeight (Node kx vx hx a T2) in
          Some (updateHeight (Node ky vy hy x' c))
      end
  end.

(** Field reads through a pointer. *)
Definition keyOf (n : AVLNode) : option string :=
  match n with
  | Null => None
  | Node k _ _ _ _ => Some k
  end.

Definition leftOf (n : AVLNode) : option AVLNode :=
  match n with
  | Null => None
  | Node _ _ _ l _ => Some l
  end.

Definition rightOf (n : AVLNode) : option AVLNode :=
  match n with
  | Null => None
  | Node _ _ _ _ r => Some r
  end.

Definition setLeft (n l : AVLNode) : option AVLNode :=
  match n with
  | Null => None
  | Node k v h _ r => Some (Node k v h l r)
  end.

Definition setRight (n r : AVLNode) : option AVLNode :=
  match n with
  | Null => None
  | Node k v h l _ => Some (Node k v h l r)
  end.

(** [b && e], where [e] is evaluated only when [b] holds. *)
Definition andThen (b : bool) (e : option bool) : option bool :=
  if b then e else Some false.

(** The four tests of [avlInsert], on the node whose height has just been
    recomputed. *)
Definition isLeftLeft (key : string) (node : AVLNode) : option bool :=
  andThen (balanceFactor node >? 1)
          (l <- leftOf node ;; kl <- keyOf l ;; Some (Key.ltb key kl)).

Definition isRightRight (key : string) (node : AVLNode) : option bool :=
  andThen (balanceFactor node <? -1)
          (r <- rightOf node ;; kr <- keyOf r ;; Some (Key.gtb key kr)).

Definition isLeftRight (key : string) (node : AVLNode) : option bool :=
  andThen (balanceFactor node >? 1)
          (l <- leftOf node ;; kl <- keyOf l ;; Some (Key.gtb key kl)).

Definition isRightLeft (key : string) (node : AVLNode) : option bool :=
  andThen (balanceFactor node <? -1)
          (r <- rightOf node ;; kr <- keyOf r ;; Some (Key.ltb key kr)).

(** Lines 164-182 of the source: recompute the height, then the four
    cases in the order of the source, then the fall-through. *)
Definition rebalance (key : string) (node0 : AVLNode) : option AVLNode :=
  let node := updateHeight node0 in
  ll <- isLeftLeft key node ;;
  if ll then rotateRight node else
  rr <- isRightRight key node ;;
  if rr then rotateLeft node else
  lr <- isLeftRight key node ;;
  if lr then
    (l <- leftOf node ;; l' <- rotateLeft l ;;
     node' <- setLeft node l' ;; rotateRight node')
  else
  rl <- isRightLeft key node ;;
  if rl then
    (r <- rightOf node ;; r' <- rotateRight r ;;
     node' <- setRight node r' ;; rotateLeft node')
  else Some node.

Fixpoint avlInsert (node : AVLNode) (key : string) (value : Course)
  : option AVLNode :=
  match node with
  | Null => Some (newNode key value)
  | Node k v h l r =>
      if Key.ltb key k then
        l' <- avlInsert l key value ;; rebalance key (Node k v h l' r)
      else if Key.gtb key k then
        r' <- avlInsert r key value ;; rebalance key (Node k v h l r')
      else Some (Node k value h l r)
  end.

(** [avlFind]: the loop walks down one path of a finite tree, so it is a
    structural recursion; [None] is the returned [nullptr]. *)
Fixpoint avlFind (node : AVLNode) (key : string) : option AVLNode :=
  match node with
  | Null => None
  | Node k _ _ l r =>
      if Key.ltb key k then avlFind l key
      else if Key.gtb key k then avlFind r key
      else Some node
  end.

Definition valueOf (n : AVLNode) : option Course :=
  match n with
  | Null => None
  | Node _ v _ _ _ => Some v
  end.

(** The character ['\n']. *)
Definition newline : string := String (ascii_of_nat 10) EmptyString.

(** The nodes in the order [avlInOrder] visits them. *)
Fixpoint visitInOrder (node : AVLNode) : list (string * Course) :=
  match node with
  | Null => []
  | Node k v _ l r => visitInOrder l ++ (k, v) :: visitInOrder r
  end.

(** [avlInOrder]: the text written to [std::cout]. *)
Fixpoint avlInOrder (node : AVLNode) : string :=
  match node with
  | Null => ""
  | Node k v _ l r =>
      (avlInOrder l ++ (k ++ ": " ++ title v ++ newline) ++ avlInOrder r)%string
  end.

(* ------------------------------------------------------------------ *)
(** *** Insertion with a log of the rotations performed

    The same code as [rebalance] and [avlInsert], each call of
    [rotateRight] or [rotateLeft] also recording the key of the node
    it was called on. *)

Inductive Rotation : Type :=
| RightRotation (pivot : string)
| LeftRotation (pivot : string).

Definition logged (mk : string -> Rotation)
    (rot : AVLNode -> option AVLNode) (n : AVLNode)
  : option (AVLNode * list Rotation) :=
  k <- keyOf n ;; t <- rot n ;; Some (t, [mk k]).

Definition rebalanceLog (key : string) (node0 : AVLNode)
  : option (AVLNode * list Rotation) :=
  let node := updateHeight node0 in
  ll <- isLeftLeft key node ;;
  if ll then logged RightRotation rotateRight node else
  rr <- isRightRight key node ;;
  if rr then logged LeftRotation rotateLeft node else
  lr <- isLeftRight key node ;;
  if lr then
    (l <- leftOf node ;; p1 <- logged LeftRotation rotateLeft l ;;
     node' <- setLeft node (fst p1) ;;
     p2 <- logged RightRotation rotateRight node' ;;
     Some (fst p2, snd p1 ++ snd p2))
  else
  rl <- isRightLeft key node ;;
  if rl then
    (r <- rightOf node ;; p1 <- logged RightRotation rotateRight r ;;
     node' <- setRight node (fst p1) ;;
     p2 <- logged LeftRotation rotateLeft node' ;;
     Some (fst p2, snd p1 ++ snd p2))
  else Some (node, []).

Fixpoint avlInsertLog (node : AVLNode) (key : string) (value : Course)
  : option (AVLNode * list Rotation) :=
  match node with
  | Null => Some (newNode key value, [])
  | Node k v h l r =>
      if Key.ltb key k then
        p <- avlInsertLog l key value ;;
        q <- rebalanceLog key (Node k v h (fst p) r) ;;
        Some (fst q, snd p ++ snd q)
      else if Key.gtb key k then
        p <- avlInsertLog r key value ;;
        q <- rebalanceLog key (Node k v h l (fst p)) ;;
        Some (fst q, snd p ++ snd q)
      else Some (Node k value h l r, [])
  end.

(** The case of [avlInsert] that a log of rotations comes from: the
    single rotations of Left Left ([rotateRight(node)]) and Right Right
    ([rotateLeft(node)]), the double rotations of Left Right
    ([rotateLeft(node->left)], then [rotateRight(node)]) and Right Left
    ([rotateRight(node->right)], then [rotateLeft(node)]). *)
Inductive RotationCase : Type := LeftLeft | RightRight | LeftRight | RightLeft.

Definition rotationCase (log : list Rotation) : option RotationCase :=
  match log with
  | [RightRotation _] => Some LeftLeft
  | [LeftRotation _] => Some RightRight
  | [LeftRotation _; RightRotation _] => Some LeftRight
  | [RightRotation _; LeftRotation _] => Some RightLeft
  | _ => None
  end.

(** The four tests in the order of the source, and how many of them
    hold ([None] when one of them reads through a null pointer). *)
Definition caseTests (key : string) (node : AVLNode) : list (option bool) :=
  [isLeftLeft key node; isRightRight key node;
   isLeftRight key node; isRightLeft key node].

Fixpoint holding (tests : list (option bool)) : option nat :=
  match tests with
  | [] => Some O
  | None :: _ => None
  | Some b :: rest =>
      n <- holding rest ;; Some (if b then S n else n)
  end.

(** The child on the taller side of a node. *)
Definition tallerChild (n : AVLNode) : AVLNode :=
  match n with
  | Null => Null
  | Node _ _ _ l r => if nodeHeight r <? nodeHeight l then l else r
  end.

(* ------------------------------------------------------------------ *)
(** *** A sequence of inserts

    The loader runs [root = avlInsert(root, key, value)] once per record,
    starting from [root = nullptr]. *)

Fixpoint insertAll (root : AVLNode) (ops : list (string * Course))
  : option AVLNode :=
  match ops with
  | [] => Some root
  | (k, v) :: rest => root' <- avlInsert root k v ;; insertAll root' rest
  end.

Fixpoint insertAllLog (root : AVLNode) (ops : list (string * Course))
  : option (AVLNode * list Rotation) :=
  match ops with
  | [] => Some (root, [])
  | (k, v) :: rest =>
      p <- avlInsertLog root k v ;;
      q <- insertAllLog (fst p) rest ;;
      Some (fst q, snd p ++ snd q)
  end.

(* ================================================================== *)
(** ** Loading and parsing *)

(** [parseCourseLine] returns [true] with [outCourse] filled, or [false]
    with [errMsg] set. *)
Inductive ParseResult : Type :=
| Parsed (outCourse : Course)
| Rejected (errMsg : string).

Definition carriageReturn : ascii := ascii_of_nat 13.

(** [if (!line.empty() && line.back() == '\r') line.pop_back();] *)
Definition dropCR (line : string) : string :=
  if negb (isEmpty line) && isChar carriageReturn (back line)
  then String.substring 0 (String.length line - 1) line
  else line.

Definition prereqsOfField (f : string) : list string :=
  if isEmpty f then []
  else map toUpper (filter (fun tok => negb (isEmpty tok)) (splitPrereqTokens f)).

Definition parseCourseLine (rawLine : string) : ParseResult :=
  let line := dropCR rawLine in
  let t := trim line in
  if isEmpty t || isChar "#" (front t) then Rejected "skip"
  else
    let fields := map (fun f => stripQuotes (trim f)) (splitCSVLine line) in
    match fields with
    | f0 :: f1 :: more =>
        if isEmpty f0 || isEmpty f1
        then Rejected "Malformed line: requires course number and title."
        else
          let prereqs := flat_map prereqsOfField more in
          Parsed (mkCourse (toUpper f0) f1 (unique (sort prereqs)))
    | _ => Rejected "Malformed line: requires course number and title."
    end.

(** The loop of [loadCoursesFromFile] over the lines of the file: every
    parsed course is inserted under its number, every other line is
    passed over. *)
Fixpoint loadLines (root : AVLNode) (lines : list string) : option AVLNode :=
  match lines with
  | [] => Some root
  | line :: rest =>
      match parseCourseLine line with
      | Parsed c => root' <- avlInsert root (number c) c ;; loadLines root' rest
      | Rejected _ => loadLines root rest
      end
  end.

(** Strings without a space character, the order "not after" on keys
    and what the parser promises of an identifier. *)
Fixpoint noSpaces (s : string) : bool :=
  match s with
  | EmptyString => true
  | String c rest => negb (isspace c) && noSpaces rest
  end.

Definition notAfter (a b : string) : Prop := Key.ltb b a = false.

Definition Normalized (p : string) : Prop :=
  p <> "" /\ trim p = p /\ toUpper p = p.

(* ================================================================== *)
(** ** Printing *)

(** One line of the prerequisite list of [printCourseInfo]. *)
Definition prerequisiteLine (root : AVLNode) (p : string) : string :=
  match avlFind root p with
  | Some (Node _ v _ _ _) => "  - " ++ p ++ " - " ++ title v ++ newline
  | _ => "  - " ++ p ++ " - (title unknown)" ++ newline
  end%string.

(** [printCourseInfo]: the text written to [std::cout]. *)
Definition printCourseInfo (root : AVLNode) (courseNumberRaw : string)
  : string :=
  match root with
  | Null => "No courses loaded. Use Option 1 to load data first." ++ newline
  | _ =>
      let key := toUpper (trim courseNumberRaw) in
      match avlFind root key with
      | Some (Node _ c _ _ _) =>
          "Course: " ++ number c ++ " - " ++ title c ++ newline ++
          match prerequisites c with
          | [] => "Prerequisites: None" ++ newline
          | ps =>
              "Prerequisites:" ++ newline ++
              String.concat "" (map (prerequisiteLine root) ps)
          end
      | _ =>
          "Course '" ++ key ++
          "' was not found. Please check the course number and try again."
          ++ newline
      end
  end%string.

(* ================================================================== *)
(** ** The structural invariants *)

Fixpoint AllKeys (P : string -> Prop) (t : AVLNode) : Prop :=
  match t with
  | Null => True
  | Node k _ _ l r => P k /\ AllKeys P l /\ AllKeys P r
  end.

(** Invariant 1: BST order. *)
Fixpoint BSTOrder (t : AVLNode) : Prop :=
  match t with
  | Null => True
  | Node k _ _ l r =>
      AllKeys (fun x => Key.lt x k) l /\ AllKeys (fun x => Key.lt k x) r /\
      BSTOrder l /\ BSTOrder r
  end.

(** Invariant 2: height correctness. *)
Fixpoint HeightCorrect (t : AVLNode) : Prop :=
  match t with
  | Null => True
  | Node _ _ h l r =>
      h = 1 + Z.max (nodeHeight l) (nodeHeight r) /\
      HeightCorrect l /\ HeightCorrect r
  end.

(** Invariant 3: AVL balance. *)
Fixpoint Balanced (t : AVLNode) : Prop :=
  match t with
  | Null => True
  | Node _ _ _ l r =>
      Z.abs (nodeHeight l - nodeHeight r) <= 1 /\ Balanced l /\ Balanced r
  end.

Definition Invariants (t : AVLNode) : Prop :=
  BSTOrder t /\ HeightCorrect t /\ Balanced t.

(** The keys of a tree, in order. *)
Definition keysOf (t : AVLNode) : list string := map fst (visitInOrder t).

(** The number of nodes. *)
Fixpoint size (t : AVLNode) : nat :=
  match t with
  | Null => O
  | Node _ _ _ l r => S (size l + size r)
  end.

(** The tree without its payloads: keys, heights and links only. *)
Inductive Shape : Type :=
| SNull : Shape
| SNode (key : string) (height : Z) (left right : Shape).

Fixpoint shapeOf (t : AVLNode) : Shape :=
  match t with
  | Null => SNull
  | Node k _ h l r => SNode k h (shapeOf l) (shapeOf r)
  end.

(** The tree with the payload of every node keyed [key] replaced. *)
Fixpoint overwrite (t : AVLNode) (key : string) (value : Course) : AVLNode :=
  match t with
  | Null => Null
  | Node k v h l r =>
      Node k (if String.eqb k key then value else v) h
           (overwrite l key value) (overwrite r key value)
  end.

(** The listing as an association list: the payload stored under a key,
    and the listing after an insert. *)
Fixpoint assoc (key : string) (l : list (string * Course)) : option Course :=
  match l with
  | [] => None
  | (k, v) :: rest => if String.eqb k key then Some v else assoc key rest
  end.

Fixpoint insertEntry (key : string) (value : Course)
    (l : list (string * Course)) : list (string * Course) :=
  match l with
  | [] => [(key, value)]
  | (k, v) :: rest =>
      if Key.ltb key k then (key, value) :: l
      else if Key.gtb key k then (k, v) :: insertEntry key value rest
      else (key, value) :: rest
  end.

Definition insertEntries (ops : list (string * Course))
    (l : list (string * Course)) : list (string * Course) :=
  fold_left (fun acc op => insertEntry (fst op) (snd op) acc) ops l.

(** The line [avlInOrder] writes for one node. *)
Definition listingLine (e : string * Course) : string :=
  (fst e ++ ": " ++ title (snd e) ++ newline)%string.

(** What an insertion that made a non-empty tree taller leaves at its
    root: the key went to one side, and that side is the taller one. *)
Definition Grew (key : string) (t : AVLNode) : Prop :=
  match t with
  | Null => False
  | Node k _ _ l r =>
      (Key.lt key k /\ nodeHeight l = nodeHeight r + 1) \/
      (Key.lt k key /\ nodeHeight r = nodeHeight l + 1)
  end.

Definition keysBelow (k : string) (l : list (string * Course)) : Prop :=
  Forall (fun e => Key.lt (fst e) k) l.

(* ================================================================== *)
(** ** The height bound *)

Definition log2 (x : R) : R := (ln x / ln 2)%R.

(** The bound of the specification on the height of a tree of [N] keys,
    and the bound with the factor rounded up. *)
Definition specHeightBound (N : nat) : R :=
  (1.44 * log2 (INR N + 2) - 0.328)%R.

Definition avlHeightBound (N : nat) : R :=
  (1.4405 * log2 (INR N + 2) - 0.328)%R.

(** The least number of nodes of an AVL tree of height [h]. *)
Fixpoint minNodes (h : nat) : nat :=
  match h with
  | O => O
  | S h' =>
      match h' with
      | O => 1%nat
      | S h'' => S (minNodes h' + minNodes h'')
      end
  end.

(** The sparsest AVL shape of height [h], its in-order ranks level by
    level, and the keys: the rank written with three decimal digits. *)
Inductive Skeleton : Type :=
| Bare : Skeleton
| Fork (l r : Skeleton).

Fixpoint sparsest (h : nat) : Skeleton :=
  match h with
  | O => Bare
  | S h' =>
      match h' with
      | O => Fork Bare Bare
      | S h'' => Fork (sparsest h') (sparsest h'')
      end
  end.

Fixpoint forks (s : Skeleton) : nat :=
  match s with
  | Bare => O
  | Fork l r => S (forks l + forks r)
  end.

Fixpoint ranksAtDepth (s : Skeleton) (lo d : nat) : list nat :=
  match s with
  | Bare => []
  | Fork l r =>
      match d with
      | O => [(lo + forks l)%nat]
      | S d' =>
          ranksAtDepth l lo d' ++ ranksAtDepth r (lo + forks l + 1)%nat d'
      end
  end.

Definition levelOrder (h : nat) : list nat :=
  flat_map (ranksAtDepth (sparsest h) 0) (seq 0 h).

Definition digit (n : nat) : ascii := ascii_of_nat (48 + n mod 10).

Definition decimalKey (n : nat) : string :=
  String (digit (n / 100)) (String (digit (n / 10)) (String (digit n) "")).

(* ================================================================== *)
(** ** Sample data *)

Definition sampleCourse (k : string) : Course :=
  mkCourse k ("Title of " ++ k) [].

(** The tree with "B" at the root (height 2) over the leaves "A" and "C". *)
Definition treeABC (cA cB cC : Course) : AVLNode :=
  Node "B" cB 2 (Node "A" cA 1 Null Null) (Node "C" cC 1 Null Null).

(** A line whose first field is three double quotes, a space, [x], a
    space and three double quotes, followed by [,T]. *)
Definition escapedQuoteLine : string :=
  let q := String dquote (String dquote (String dquote EmptyString)) in
  (q ++ " x " ++ q ++ ",T")%string.

(** The 609 inserts that build the sparsest tree of height 13. *)
Definition sparsestInserts : list (string * Course) :=
  map (fun n => (decimalKey n, sampleCourse (decimalKey n))) (levelOrder 13).

(* ================================================================== *)
(** ** The rest of the program: teardown, loader, listing, menu *)

(** [avlDestroy]: the keys of the nodes in the order they are deleted. *)
Fixpoint avlDestroy (node : AVLNode) : list string :=
  match node with
  | Null => []
  | Node k _ _ l r => avlDestroy l ++ avlDestroy r ++ [k]
  end.

(** What is written, and to which stream. *)
Inductive Output : Type :=
| Cout (text : string)
| Cerr (text : string).

(** [operator<<] on a [size_t]: the decimal digits. *)
Definition decimal (n : nat) : string :=
  NilEmpty.string_of_uint (Nat.to_uint n).

(** The variables of the loop of [loadCoursesFromFile]; the [size_t]
    counters are in [nat]. *)
Record LoadState : Type := mkLoadState {
  loadRoot : AVLNode;
  lineNumber : nat;
  added : nat;
  skipped : nat;
  warnings : list Output
}.

Fixpoint loadLoop (lines : list string) (st : LoadState) : option LoadState :=
  match lines with
  | [] => Some st
  | line :: rest =>
      let n := S (lineNumber st) in
      match parseCourseLine line with
      | Rejected err =>
          if String.eqb err "skip" then
            loadLoop rest
              (mkLoadState (loadRoot st) n (added st) (skipped st)
                 (warnings st))
          else
            loadLoop rest
              (mkLoadState (loadRoot st) n (added st) (S (skipped st))
                 (warnings st ++
                  [Cerr ("WARN (line " ++ decimal n ++ "): " ++ err
                         ++ newline)]))
      | Parsed c =>
          root' <- avlInsert (loadRoot st) (number c) c ;;
          loadLoop rest
            (mkLoadState root' n (S (added st)) (skipped st) (warnings st))
      end
  end.

(** [loadCoursesFromFile(filename, root)].  The file is [None] when it
    cannot be opened, and else its lines as [std::getline] returns
    them.  The result is the returned flag, the new value of [root] and
    what was written. *)
Definition loadCoursesFromFile (file : option (list string))
    (filename : string) (root : AVLNode)
  : option (bool * AVLNode * list Output) :=
  match file with
  | None =>
      Some (false, root,
            [Cerr ("ERROR: Could not open file '" ++ filename ++
                   "'. Check the path and try again." ++ newline)])
  | Some lines =>
      st <- loadLoop lines (mkLoadState Null 0 0 0 []) ;;
      let summary :=
        ("Loaded " ++ decimal (added st) ++ " courses" ++
         (if (0 <? skipped st)%nat
          then " (" ++ decimal (skipped st) ++ " skipped due to errors)"
          else "") ++
         " from '" ++ filename ++ "'." ++ newline)%string in
      if (added st =? 0)%nat then
        Some (false, loadRoot st,
              warnings st ++
              [Cout summary;
               Cerr ("ERROR: No valid course records were loaded. " ++
                     "Verify file format." ++ newline)])
      else Some (true, loadRoot st, warnings st ++ [Cout summary])
  end.

Definition printAllCourses (root : AVLNode) : string :=
  match root with
  | Null => "No courses loaded. Use Option 1 to load data first." ++ newline
  | _ =>
      "---- Computer Science Course List (Alphanumeric) ----" ++ newline ++
      avlInOrder root ++
      "-----------------------------------------------------" ++ newline
  end%string.

Definition printMenu : string :=
  (newline ++
   "================ Advising Assistance Menu ================" ++ newline ++
   "  1. Load file data into the data structure" ++ newline ++
   "  2. Print an alphanumeric list of all courses" ++ newline ++
   "  3. Print course information (title and prerequisites)" ++ newline ++
   "  9. Exit the program" ++ newline ++
   "==========================================================" ++ newline ++
   "Enter your choice: ")%string.

(** [std::stoi] on a string without leading spaces: an optional sign,
    then the longest run of decimal digits; what follows is ignored.
    [None] is the exception thrown when there is no digit or when the
    value does not fit an [int] (32 bits). *)
Definition digitValue (c : ascii) : option Z :=
  let n := N_of_ascii c in
  if ((48 <=? n) && (n <=? 57))%N then Some (Z.of_N n - 48) else None.

Fixpoint digitsValue (s : string) (acc : Z) : Z :=
  match s with
  | EmptyString => acc
  | String c rest =>
      match digitValue c with
      | Some d => digitsValue rest (10 * acc + d)
      | None => acc
      end
  end.

Definition startsWithDigit (s : string) : bool :=
  match s with
  | EmptyString => false
  | String c _ => match digitValue c with Some _ => true | None => false end
  end.

Definition fitsInt (z : Z) : bool := (-2147483648 <=? z) && (z <=? 2147483647).

Definition stoi (s : string) : option Z :=
  let '(negative, body) :=
    match s with
    | String c rest =>
        if Ascii.eqb c "-" then (true, rest)
        else if Ascii.eqb c "+" then (false, rest)
        else (false, s)
    | EmptyString => (false, s)
    end in
  if startsWithDigit body then
    let v := digitsValue body 0 in
    let z := if negative then - v else v in
    if fitsInt z then Some z else None
  else None.

(** The file system as [main] sees it: what opening a name gives. *)
Definition Files : Type := string -> option (list string).

(** The variables of [main]. *)
Record Session : Type := mkSession {
  root : AVLNode;
  dataLoaded : bool
}.

(** The loop of [main], run on the lines that [std::cin] still holds;
    the result is what was written and the variables at the loop's
    exit. *)
Fixpoint mainLoop (files : Files) (stdin : list string) (s : Session)
  : option (list Output * Session) :=
  let continue (out : list Output) (rest : list string) (s' : Session) :=
    r <- mainLoop files rest s' ;; Some (Cout printMenu :: out ++ fst r, snd r) in
  match stdin with
  | [] =>
      Some ([Cout printMenu;
             Cerr (newline ++
                   "ERROR: Input stream closed unexpectedly. Exiting." ++
                   newline)], s)
  | choiceLine :: rest =>
      let choiceTrim := trim choiceLine in
      if isEmpty choiceTrim then
        continue [Cout ("Please enter a valid option number." ++ newline)]
                 rest s
      else
        match stoi choiceTrim with
        | None =>
            continue
              [Cout ("Invalid input. Please enter 1, 2, 3, or 9." ++ newline)]
              rest s
        | Some choice =>
            if choice =? 9 then
              Some ([Cout printMenu;
                     Cout ("Exiting Advising Assistance Program. Goodbye!"
                           ++ newline)], s)
            else if choice =? 1 then
              let prompt :=
                Cout ("Enter the filename containing course data (e.g., " ++
                      "CS 300 ABCU_Advising_Program_Input.csv): ") in
              match rest with
              | [] =>
                  continue
                    [prompt; Cerr ("ERROR: Failed to read filename." ++ newline)]
                    rest s
              | filenameLine :: rest' =>
                  let filename := trim filenameLine in
                  if isEmpty filename then
                    continue
                      [prompt; Cout ("Filename cannot be empty." ++ newline)]
                      rest' s
                  else
                    match loadCoursesFromFile (files filename) filename
                            (root s) with
                    | None => None
                    | Some (true, root', out) =>
                        continue (prompt :: out) rest' (mkSession root' true)
                    | Some (false, _, out) =>
                        continue (prompt :: out) rest' (mkSession Null false)
                    end
              end
            else if choice =? 2 then
              if dataLoaded s then
                continue [Cout (printAllCourses (root s))] rest s
              else
                continue
                  [Cout ("Please load data (Option 1) before printing " ++
                         "the course list." ++ newline)]
                  rest s
            else if choice =? 3 then
              if dataLoaded s then
                let prompt :=
                  Cout "Enter the course number to look up (e.g., CSCI300): " in
                match rest with
                | [] =>
                    continue
                      [prompt;
                       Cerr ("ERROR: Failed to read course number." ++ newline)]
                      rest s
                | courseNumber :: rest' =>
                    if isEmpty (trim courseNumber) then
                      continue
                        [prompt;
                         Cout ("Course number cannot be empty." ++ newline)]
                        rest' s
                    else
                      continue
                        [prompt; Cout (printCourseInfo (root s) courseNumber)]
                        rest' s
                end
              else
                continue
                  [Cout ("Please load data (Option 1) before printing " ++
                         "course information." ++ newline)]
                  rest s
            else
              continue
                [Cout ("Unknown option. Please enter 1, 2, 3, or 9." ++ newline)]
                rest s
        end
  end.

(** [main]: the loop from [root = nullptr], [dataLoaded = false]. *)
Definition main (files : Files) (stdin : list string)
  : option (list Output * Session) :=
  mainLoop files stdin (mkSession Null false).

(* ================================================================== *)
(** ** Vocabulary for the properties of the text utilities *)

Definition headIsSpace (s : string) : bool :=
  match s with
  | EmptyString => false
  | String c _ => isspace c
  end.

Fixpoint lastIsSpace (s : string) : bool :=
  match s with
  | EmptyString => false
  | String c rest =>
      match rest with
      | EmptyString => isspace c
      | String _ _ => lastIsSpace rest
      end
  end.

Fixpoint allChars (p : ascii -> bool) (s : string) : bool :=
  match s with
  | EmptyString => true
  | String c rest => p c && allChars p rest
  end.

Fixpoint filterChars (p : ascii -> bool) (s : string) : string :=
  match s with
  | EmptyString => EmptyString
  | String c rest =>
      if p c then String c (filterChars p rest) else filterChars p rest
  end.

Definition isQuote (c : ascii) : bool := Ascii.eqb c dquote.
Definition isComma (c : ascii) : bool := Ascii.eqb c comma.

(** A field that needs no quoting: no comma and no double quote. *)
Definition plainField (s : string) : bool :=
  allChars (fun c => negb (isQuote c) && negb (isComma c)) s.

(** CSV quoting: every double quote doubled, the whole between double
    quotes. *)
Fixpoint escapeQuotes (s : string) : string :=
  match s with
  | EmptyString => EmptyString
  | String c rest =>
      if isQuote c then String dquote (String dquote (escapeQuotes rest))
      else String c (escapeQuotes rest)
  end.

Definition quoteField (s : string) : string :=
  String dquote (escapeQuotes s ++ String dquote EmptyString).

(** What may follow a field: the end of the line, or a comma. *)
Definition fieldEnd (rest : string) : Prop :=
  rest = "" \/ exists more, rest = String comma more.

(** A prerequisite token: not empty, no delimiter in it. *)
Definition isToken (s : string) : bool :=
  negb (isEmpty s) && allChars (fun c => negb (isDelimiter c)) s.

(** The courses of the accepted lines of a file, in file order, and the
    number of lines reported as malformed. *)
Definition acceptedCourses (lines : list string) : list Course :=
  flat_map (fun line => match parseCourseLine line with
                        | Parsed c => [c]
                        | Rejected _ => []
                        end) lines.

Definition isMalformed (line : string) : bool :=
  match parseCourseLine line with
  | Parsed _ => false
  | Rejected err => negb (String.eqb err "skip")
  end.

Definition courseInserts (cs : list Course) : list (string * Course) :=
  map (fun c => (number c, c)) cs.

(** A session of [main] as it is between two commands. *)
Definition Consistent (s : Session) : Prop :=
  Invariants (root s) /\
  (dataLoaded s = true <-> root s <> Null).

(** A field as a course number or a title is usually written: not empty,
    without comma or double quote, without a space at either end. *)
Definition cleanField (s : string) : Prop :=
  s <> "" /\ plainField s = true /\
  headIsSpace s = false /\ lastIsSpace s = false.

(** What the rebalancing of a node logs: nothing, or the rotations of
    one case, and then the height is the height before the insert. *)
Definition Rebalanced (h : Z) (t' : AVLNode) (log : list Rotation) : Prop :=
  log = [] \/ (rotationCase log <> None /\ nodeHeight t' = h).

(* ================================================================== *)
(** ** Facts about the order on keys *)

#[local] Arguments Z.add : simpl never.
#[local] Arguments Z.sub : simpl never.
#[local] Arguments Z.max : simpl never.

Module KeyFacts.

Lemma ascii_compare_refl (a : ascii) : Ascii.compare a a = Eq.
Proof. unfold Ascii.compare. apply N.compare_refl. Qed.

Lemma ascii_compare_eq (a b : ascii) : Ascii.compare a b = Eq -> a = b.
Proof. apply Ascii.compare_eq_iff. Qed.

Lemma ascii_lt_trans (a b c : ascii) :
  Ascii.compare a b = Lt -> Ascii.compare b c = Lt -> Ascii.compare a c = Lt.
Proof.
  unfold Ascii.compare. rewrite !N.compare_lt_iff. apply N.lt_trans.
Qed.

Lemma compare_refl (s : string) : String.compare s s = Eq.
Proof.
  induction s as [|a s IH]; simpl; [reflexivity|].
  now rewrite ascii_compare_refl.
Qed.

Lemma lt_irrefl (s : string) : ~ Key.lt s s.
Proof. unfold Key.lt. rewrite compare_refl. discriminate. Qed.

Lemma lt_trans (a b c : string) : Key.lt a b -> Key.lt b c -> Key.lt a c.
Proof.
  unfold Key.lt. revert b c.
  induction a as [|x a IH]; intros [|y b] [|z c]; simpl; try discriminate;
    try reflexivity.
  destruct (Ascii.compare x y) eqn:Exy; try discriminate;
    destruct (Ascii.compare y z) eqn:Eyz; try discriminate; intros H1 H2.
  - apply ascii_compare_eq in Exy, Eyz. subst.
    rewrite ascii_compare_refl. eauto.
  - apply ascii_compare_eq in Exy. subst. now rewrite Eyz.
  - apply ascii_compare_eq in Eyz. subst. now rewrite Exy.
  - now rewrite (ascii_lt_trans _ _ _ Exy Eyz).
Qed.

Lemma gt_lt (a b : string) : String.compare a b = Gt <-> Key.lt b a.
Proof.
  unfold Key.lt. rewrite (String.compare_antisym b a).
  destruct (String.compare a b); simpl; split; congruence.
Qed.

Lemma lt_asym (a b : string) : Key.lt a b -> ~ Key.lt b a.
Proof. intros H1 H2. exact (lt_irrefl (lt_trans H1 H2)). Qed.

Lemma ltb_lt (a b : string) : Key.ltb a b = true <-> Key.lt a b.
Proof.
  unfold Key.ltb, String.ltb, Key.lt.
  destruct (String.compare a b); split; congruence.
Qed.

Lemma gtb_lt (a b : string) : Key.gtb a b = true <-> Key.lt b a.
Proof.
  rewrite <- gt_lt. unfold Key.gtb.
  destruct (String.compare a b); split; congruence.
Qed.

Lemma cmp (a b : string) : Key.Cmp a b (Key.ltb a b) (Key.gtb a b).
Proof.
  unfold Key.ltb, String.ltb, Key.gtb.
  destruct (String.compare a b) eqn:E.
  - apply Key.CmpEq. now apply String.compare_eq_iff.
  - now apply Key.CmpLt.
  - apply Key.CmpGt. now apply gt_lt.
Qed.

Lemma ltb_true (a b : string) : Key.lt a b -> Key.ltb a b = true.
Proof. apply ltb_lt. Qed.

Lemma gtb_true (a b : string) : Key.lt b a -> Key.gtb a b = true.
Proof. apply gtb_lt. Qed.

Lemma ltb_false (a b : string) : Key.lt b a -> Key.ltb a b = false.
Proof.
  intros H. destruct (Key.ltb a b) eqn:E; [|reflexivity].
  apply ltb_lt in E. now destruct (lt_asym H).
Qed.

Lemma gtb_false (a b : string) : Key.lt a b -> Key.gtb a b = false.
Proof.
  intros H. destruct (Key.gtb a b) eqn:E; [|reflexivity].
  apply gtb_lt in E. now destruct (lt_asym H).
Qed.

Lemma ltb_irrefl (a : string) : Key.ltb a a = false.
Proof.
  destruct (Key.ltb a a) eqn:E; [|reflexivity].
  apply ltb_lt in E. now destruct (lt_irrefl E).
Qed.

Lemma gtb_irrefl (a : string) : Key.gtb a a = false.
Proof.
  destruct (Key.gtb a a) eqn:E; [|reflexivity].
  apply gtb_lt in E. now destruct (lt_irrefl E).
Qed.

Lemma lt_neq (a b : string) : Key.lt a b -> a <> b.
Proof. intros H ->. exact (lt_irrefl H). Qed.

End KeyFacts.

(* ================================================================== *)
(** ** Order: rotations and insertion keep the keys in BST order *)

Section Order.

Lemma AllKeys_impl (P Q : string -> Prop) (t : AVLNode) :
  (forall x, P x -> Q x) -> AllKeys P t -> AllKeys Q t.
Proof.
  intros HPQ. induction t as [|k v h l IHl r IHr]; simpl; [trivial|].
  intuition.
Qed.

Lemma AllKeys_In (P : string -> Prop) (t : AVLNode) :
  AllKeys P t <-> (forall x, In x (keysOf t) -> P x).
Proof.
  unfold keysOf.
  induction t as [|k v h l IHl r IHr]; simpl.
  - tauto.
  - rewrite map_app. simpl. rewrite IHl, IHr. split.
    + intros (Hk & Hl & Hr) x Hx. apply in_app_iff in Hx.
      destruct Hx as [Hx|[<-|Hx]]; auto.
    + intros H. repeat split; intros; apply H; apply in_app_iff;
        simpl; auto.
Qed.

Lemma AllKeys_updateHeight (P : string -> Prop) (t : AVLNode) :
  AllKeys P (updateHeight t) <-> AllKeys P t.
Proof. destruct t; simpl; tauto. Qed.

Lemma BSTOrder_updateHeight (t : AVLNode) :
  BSTOrder (updateHeight t) <-> BSTOrder t.
Proof. destruct t; simpl; tauto. Qed.

Lemma rotateRight_order (y t : AVLNode) :
  rotateRight y = Some t ->
  (BSTOrder y -> BSTOrder t) /\
  (forall P, AllKeys P y -> AllKeys P t).
Proof.
  destruct y as [|ky vy hy [|kx vx hx a T2] c]; simpl; try discriminate.
  intros [= <-]. simpl. split.
  - intros ((Hx & Ha & HT2) & Hc & (Hax & HT2x & Ba & BT2) & Bc).
    repeat split; trivial.
    eapply AllKeys_impl; [|exact Hc].
    intros z Hz. exact (KeyFacts.lt_trans Hx Hz).
  - intros P (Hy & (Hx & Ha & HT2) & Hc). tauto.
Qed.

Lemma rotateLeft_order (x t : AVLNode) :
  rotateLeft x = Some t ->
  (BSTOrder x -> BSTOrder t) /\
  (forall P, AllKeys P x -> AllKeys P t).
Proof.
  destruct x as [|kx vx hx a [|ky vy hy T2 c]]; simpl; try discriminate.
  intros [= <-]. simpl. split.
  - intros (Ha & (Hy & HT2 & Hc) & Ba & (HT2y & Hcy & BT2 & Bc)).
    repeat split; trivial.
    eapply AllKeys_impl; [|exact Ha].
    intros z Hz. exact (KeyFacts.lt_trans Hz Hy).
  - intros P (Hx & Ha & (Hy & HT2 & Hc)). tauto.
Qed.

Lemma rebalance_order (key : string) (n t : AVLNode) :
  rebalance key n = Some t ->
  (BSTOrder n -> BSTOrder t) /\
  (forall P, AllKeys P n -> AllKeys P t).
Proof.
  unfold rebalance.
  pose proof (BSTOrder_updateHeight n) as HB.
  pose proof (fun P => AllKeys_updateHeight P n) as HA.
  destruct (updateHeight n) as [|k v h l r] eqn:En.
  { cbv. intros [= <-]. simpl. tauto. }
  destruct (isLeftLeft key _) as [[|]|]; cbn [bind]; try discriminate.
  { intros H. apply rotateRight_order in H. destruct H as [H1 H2].
    split; [intros; apply H1, HB; trivial | intros P HP; apply H2, HA, HP]. }
  destruct (isRightRight key _) as [[|]|]; cbn [bind]; try discriminate.
  { intros H. apply rotateLeft_order in H. destruct H as [H1 H2].
    split; [intros; apply H1, HB; trivial | intros P HP; apply H2, HA, HP]. }
  destruct (isLeftRight key _) as [[|]|]; cbn [bind leftOf]; try discriminate.
  { destruct (rotateLeft l) as [l'|] eqn:El; cbn [bind setLeft]; try discriminate.
    intros H. apply rotateRight_order in H. destruct H as [H1 H2].
    apply rotateLeft_order in El. destruct El as [L1 L2].
    split.
    - intros Hn. apply HB in Hn. apply H1. simpl in *.
      destruct Hn as (Hl & Hr & Bl & Br). auto.
    - intros P HP. apply HA in HP. apply H2. simpl in *.
      destruct HP as (Hk & Hl & Hr). auto. }
  destruct (isRightLeft key _) as [[|]|]; cbn [bind rightOf]; try discriminate.
  { destruct (rotateRight r) as [r'|] eqn:Er; cbn [bind setRight]; try discriminate.
    intros H. apply rotateLeft_order in H. destruct H as [H1 H2].
    apply rotateRight_order in Er. destruct Er as [R1 R2].
    split.
    - intros Hn. apply HB in Hn. apply H1. simpl in *.
      destruct Hn as (Hl & Hr & Bl & Br). auto.
    - intros P HP. apply HA in HP. apply H2. simpl in *.
      destruct HP as (Hk & Hl & Hr). auto. }
  intros [= <-]. split; [apply HB | intros P; apply HA].
Qed.

Lemma avlInsert_order (key : string) (value : Course) (t t' : AVLNode) :
  avlInsert t key value = Some t' ->
  (BSTOrder t -> BSTOrder t') /\
  (forall P : string -> Prop, AllKeys P t -> P key -> AllKeys P t').
Proof.
  revert t'. induction t as [|k v h l IHl r IHr]; intros t'; simpl.
  - intros [= <-]. simpl. tauto.
  - destruct (KeyFacts.cmp key k) as [Hlt|Hgt|Heq].
    + destruct (avlInsert l key value) as [l'|]; simpl; try discriminate.
      destruct (IHl l' eq_refl) as [B1 A1].
      intros H. apply rebalance_order in H. destruct H as [B2 A2]. split.
      * intros (Hl & Hr & Bl & Br). apply B2. simpl. auto.
      * intros P (Hk & Hl & Hr) Hkey. apply A2. simpl. auto.
    + destruct (avlInsert r key value) as [r'|]; simpl; try discriminate.
      destruct (IHr r' eq_refl) as [B1 A1].
      intros H. apply rebalance_order in H. destruct H as [B2 A2]. split.
      * intros (Hl & Hr & Bl & Br). apply B2. simpl. auto.
      * intros P (Hk & Hl & Hr) Hkey. apply A2. simpl. auto.
    + intros [= <-]. simpl. subst k. tauto.
Qed.

End Order.

(* ================================================================== *)
(** ** Heights: insertion never faults and restores the balance *)

Section Heights.

Lemma nodeHeight_nonneg (t : AVLNode) : HeightCorrect t -> 0 <= nodeHeight t.
Proof.
  induction t as [|k v h l IHl r IHr]; simpl; [lia|].
  intros (-> & Hl & Hr). specialize (IHl Hl). lia.
Qed.

Lemma nodeHeight_zero (t : AVLNode) :
  HeightCorrect t -> nodeHeight t = 0 -> t = Null.
Proof.
  destruct t as [|k v h l r]; simpl; [trivial|].
  intros (-> & Hl & Hr). apply nodeHeight_nonneg in Hl. lia.
Qed.

Ltac heights :=
  repeat match goal with
         | H : HeightCorrect ?t |- _ =>
             lazymatch goal with
             | _ : 0 <= nodeHeight t |- _ => fail
             | _ => pose proof (nodeHeight_nonneg t H)
             end
         end.

Ltac test_bf :=
  rewrite ?Z.gtb_ltb;
  repeat match goal with
         | |- context [?a <? ?b] => destruct (Z.ltb_spec a b); try lia
         end.

Ltac rotated :=
  eexists; split; [reflexivity|]; simpl in *;
  repeat split; trivial; try lia; left; lia.

Lemma rebalance_left (key k : string) (v : Course) (h hl : Z)
    (l' r : AVLNode) :
  HeightCorrect l' -> Balanced l' -> HeightCorrect r -> Balanced r ->
  0 <= hl -> Z.abs (hl - nodeHeight r) <= 1 ->
  Key.lt key k ->
  nodeHeight l' = hl \/
    (nodeHeight l' = hl + 1 /\ (0 < hl -> Grew key l')) ->
  exists t', rebalance key (Node k v h l' r) = Some t' /\
    HeightCorrect t' /\ Balanced t' /\
    (nodeHeight t' = 1 + Z.max hl (nodeHeight r) \/
     (nodeHeight t' = 2 + Z.max hl (nodeHeight r) /\ Grew key t')).
Proof.
  intros HCl Bl HCr Br Hhl Hbal Hkey Hgrow.
  unfold rebalance, isLeftLeft, isRightRight, isLeftRight, isRightLeft.
  cbn [updateHeight balanceFactor leftOf rightOf bind].
  heights.
  destruct (Z.ltb_spec 1 (nodeHeight l' - nodeHeight r)) as [Hbf|Hbf];
    rewrite ?Z.gtb_ltb.
  - (* left side two taller: the insertion made it grow *)
    destruct Hgrow as [E|[E G]]; [lia|].
    assert (0 < hl) as Hpos by lia. specialize (G Hpos).
    destruct l' as [|kl vl hl' a b]; [destruct G|].
    simpl in HCl, Bl, E, G. destruct HCl as (Ehl & HCa & HCb).
    destruct Bl as (Bab & Ba & Bb). heights.
    test_bf. cbn [andThen keyOf bind]. destruct G as [[Hlt Eh]|[Hgt Eh]].
    + rewrite (KeyFacts.ltb_true Hlt). cbn [rotateRight].
      rotated.
    + rewrite (KeyFacts.ltb_false Hgt), (KeyFacts.gtb_true Hgt).
      destruct b as [|kb vb hb b1 b2]; [simpl in Eh; lia|].
      simpl in HCb, Bb, Eh, Bab. destruct HCb as (Ehb & HCb1 & HCb2).
      destruct Bb as (Bb12 & Bb1 & Bb2). heights.
      cbn [rotateLeft rotateRight updateHeight setLeft bind].
      rotated.
  - (* no rotation *)
    test_bf. cbn [andThen].
    eexists. split; [reflexivity|]. simpl.
    repeat split; trivial; try lia.
    destruct Hgrow as [E|[E G]]; [left; lia|].
    destruct (Z.eq_dec hl (nodeHeight r)); [right|left]; intuition lia.
Qed.

Lemma rebalance_right (key k : string) (v : Course) (h hr : Z)
    (l r' : AVLNode) :
  HeightCorrect l -> Balanced l -> HeightCorrect r' -> Balanced r' ->
  0 <= hr -> Z.abs (nodeHeight l - hr) <= 1 ->
  Key.lt k key ->
  nodeHeight r' = hr \/
    (nodeHeight r' = hr + 1 /\ (0 < hr -> Grew key r')) ->
  exists t', rebalance key (Node k v h l r') = Some t' /\
    HeightCorrect t' /\ Balanced t' /\
    (nodeHeight t' = 1 + Z.max (nodeHeight l) hr \/
     (nodeHeight t' = 2 + Z.max (nodeHeight l) hr /\ Grew key t')).
Proof.
  intros HCl Bl HCr Br Hhr Hbal Hkey Hgrow.
  unfold rebalance, isLeftLeft, isRightRight, isLeftRight, isRightLeft.
  cbn [updateHeight balanceFactor leftOf rightOf bind].
  heights.
  destruct (Z.ltb_spec (nodeHeight l - nodeHeight r') (-1)) as [Hbf|Hbf];
    rewrite ?Z.gtb_ltb.
  - (* right side two taller: the insertion made it grow *)
    destruct Hgrow as [E|[E G]]; [lia|].
    assert (0 < hr) as Hpos by lia. specialize (G Hpos).
    destruct r' as [|kr vr hr' a b]; [destruct G|].
    simpl in HCr, Br, E, G. destruct HCr as (Ehr & HCa & HCb).
    destruct Br as (Bab & Ba & Bb). heights.
    test_bf. cbn [andThen keyOf bind]. destruct G as [[Hlt Eh]|[Hgt Eh]].
    + rewrite (KeyFacts.gtb_false Hlt), (KeyFacts.ltb_true Hlt).
      destruct a as [|ka va ha a1 a2]; [simpl in Eh; lia|].
      simpl in HCa, Ba, Eh, Bab. destruct HCa as (Eha & HCa1 & HCa2).
      destruct Ba as (Ba12 & Ba1 & Ba2). heights.
      cbn [rotateLeft rotateRight updateHeight setRight bind].
      rotated.
    + rewrite (KeyFacts.gtb_true Hgt). cbn [rotateLeft].
      rotated.
  - (* no rotation *)
    test_bf. cbn [andThen].
    eexists. split; [reflexivity|]. simpl.
    repeat split; trivial; try lia.
    destruct Hgrow as [E|[E G]]; [left; lia|].
    destruct (Z.eq_dec hr (nodeHeight l)); [right|left]; intuition lia.
Qed.

(** Insertion into a tree with correct heights and AVL balance returns
    a tree, again with correct heights and AVL balance, of the same
    height or one more; when a non-empty tree grew, the root records on
    which side. *)
Lemma avlInsert_heights (key : string) (value : Course) (t : AVLNode) :
  HeightCorrect t -> Balanced t ->
  exists t', avlInsert t key value = Some t' /\
    HeightCorrect t' /\ Balanced t' /\
    (nodeHeight t' = nodeHeight t \/
     (nodeHeight t' = nodeHeight t + 1 /\
      (0 < nodeHeight t -> Grew key t'))).
Proof.
  induction t as [|k v h l IHl r IHr]; intros HC B.
  - eexists. split; [reflexivity|]. simpl. intuition lia.
  - simpl in HC, B. destruct HC as (Eh & HCl & HCr).
    destruct B as (Bh & Bl & Br). cbn [avlInsert].
    destruct (KeyFacts.cmp key k) as [Hlt|Hgt|Heq].
    + destruct (IHl HCl Bl) as (l' & -> & HCl' & Bl' & G).
      cbn [bind].
      destruct (@rebalance_left key k v h (nodeHeight l) l' r)
        as (t' & E & HC' & B' & G'); trivial.
      { now apply nodeHeight_nonneg. }
      exists t'. cbn [nodeHeight]. intuition lia.
    + destruct (IHr HCr Br) as (r' & -> & HCr' & Br' & G).
      cbn [bind].
      destruct (@rebalance_right key k v h (nodeHeight r) l r')
        as (t' & E & HC' & B' & G'); trivial.
      { now apply nodeHeight_nonneg. }
      exists t'. cbn [nodeHeight]. intuition lia.
    + eexists. split; [reflexivity|]. simpl. intuition lia.
Qed.

(** When the node is left out of balance after an insertion on the
    left, the left child exists, its key differs from the inserted key
    and one test holds. *)
Lemma tests_after_left (key k : string) (v : Course) (h hl : Z)
    (l' r : AVLNode) :
  HeightCorrect l' -> HeightCorrect r ->
  0 <= hl -> Z.abs (hl - nodeHeight r) <= 1 ->
  nodeHeight l' = hl \/
    (nodeHeight l' = hl + 1 /\ (0 < hl -> Grew key l')) ->
  1 < Z.abs (balanceFactor (updateHeight (Node k v h l' r))) ->
  tallerChild (updateHeight (Node k v h l' r)) = l' /\
  (exists kc, keyOf l' = Some kc /\ kc <> key) /\
  holding (caseTests key (updateHeight (Node k v h l' r))) = Some 1%nat.
Proof.
  intros HCl HCr Hhl Hbal Hgrow.
  unfold caseTests, isLeftLeft, isRightRight, isLeftRight, isRightLeft.
  cbn [updateHeight balanceFactor leftOf rightOf bind tallerChild].
  intros Hbf. heights.
  destruct Hgrow as [E|[E G]]; [lia|].
  assert (0 < hl) as Hpos by lia. specialize (G Hpos).
  destruct l' as [|kl vl hl' a b]; [destruct G|].
  cbn [nodeHeight] in *. rewrite !Z.gtb_ltb.
  destruct (Z.ltb_spec (nodeHeight r) hl'); [|lia].
  destruct (Z.ltb_spec 1 (hl' - nodeHeight r)); [|lia].
  destruct (Z.ltb_spec (hl' - nodeHeight r) (-1)); [lia|].
  cbn [andThen keyOf bind]. split; [reflexivity|].
  destruct G as [[Hlt _]|[Hgt _]].
  - split.
    + exists kl. split; [reflexivity|].
      intros ->. exact (KeyFacts.lt_irrefl Hlt).
    + now rewrite (KeyFacts.ltb_true Hlt), (KeyFacts.gtb_false Hlt).
  - split.
    + exists kl. split; [reflexivity|].
      intros ->. exact (KeyFacts.lt_irrefl Hgt).
    + now rewrite (KeyFacts.ltb_false Hgt), (KeyFacts.gtb_true Hgt).
Qed.

Lemma tests_after_right (key k : string) (v : Course) (h hr : Z)
    (l r' : AVLNode) :
  HeightCorrect l -> HeightCorrect r' ->
  0 <= hr -> Z.abs (nodeHeight l - hr) <= 1 ->
  nodeHeight r' = hr \/
    (nodeHeight r' = hr + 1 /\ (0 < hr -> Grew key r')) ->
  1 < Z.abs (balanceFactor (updateHeight (Node k v h l r'))) ->
  tallerChild (updateHeight (Node k v h l r')) = r' /\
  (exists kc, keyOf r' = Some kc /\ kc <> key) /\
  holding (caseTests key (updateHeight (Node k v h l r'))) = Some 1%nat.
Proof.
  intros HCl HCr Hhr Hbal Hgrow.
  unfold caseTests, isLeftLeft, isRightRight, isLeftRight, isRightLeft.
  cbn [updateHeight balanceFactor leftOf rightOf bind tallerChild].
  intros Hbf. heights.
  destruct Hgrow as [E|[E G]]; [lia|].
  assert (0 < hr) as Hpos by lia. specialize (G Hpos).
  destruct r' as [|kr vr hr' a b]; [destruct G|].
  cbn [nodeHeight] in *. rewrite !Z.gtb_ltb.
  destruct (Z.ltb_spec hr' (nodeHeight l)); [lia|].
  destruct (Z.ltb_spec 1 (nodeHeight l - hr')); [lia|].
  destruct (Z.ltb_spec (nodeHeight l - hr') (-1)); [|lia].
  cbn [andThen keyOf bind]. split; [reflexivity|].
  destruct G as [[Hlt _]|[Hgt _]].
  - split.
    + exists kr. split; [reflexivity|].
      intros ->. exact (KeyFacts.lt_irrefl Hlt).
    + now rewrite (KeyFacts.ltb_true Hlt), (KeyFacts.gtb_false Hlt).
  - split.
    + exists kr. split; [reflexivity|].
      intros ->. exact (KeyFacts.lt_irrefl Hgt).
    + now rewrite (KeyFacts.ltb_false Hgt), (KeyFacts.gtb_true Hgt).
Qed.

Lemma updateHeight_idem (n : AVLNode) :
  updateHeight (updateHeight n) = updateHeight n.
Proof. now destruct n. Qed.

Lemma rebalance_updated (key : string) (n : AVLNode) :
  rebalance key (updateHeight n) = rebalance key n.
Proof. unfold rebalance. now rewrite updateHeight_idem. Qed.

End Heights.

(* ================================================================== *)
(** ** The in-order listing of a tree *)

Section Listing.

Lemma rotateRight_visit (y t : AVLNode) :
  rotateRight y = Some t -> visitInOrder t = visitInOrder y.
Proof.
  destruct y as [|ky vy hy [|kx vx hx a T2] c]; simpl; try discriminate.
  intros [= <-]. simpl. now rewrite <- app_assoc.
Qed.

Lemma rotateLeft_visit (x t : AVLNode) :
  rotateLeft x = Some t -> visitInOrder t = visitInOrder x.
Proof.
  destruct x as [|kx vx hx a [|ky vy hy T2 c]]; simpl; try discriminate.
  intros [= <-]. simpl. now rewrite <- app_assoc.
Qed.

Lemma updateHeight_visit (t : AVLNode) :
  visitInOrder (updateHeight t) = visitInOrder t.
Proof. now destruct t. Qed.

Lemma rebalance_visit (key : string) (n t : AVLNode) :
  rebalance key n = Some t -> visitInOrder t = visitInOrder n.
Proof.
  unfold rebalance. rewrite <- (updateHeight_visit n).
  destruct (updateHeight n) as [|k v h l r].
  { cbv. now intros [= <-]. }
  destruct (isLeftLeft key _) as [[|]|]; cbn [bind]; try discriminate.
  { apply rotateRight_visit. }
  destruct (isRightRight key _) as [[|]|]; cbn [bind]; try discriminate.
  { apply rotateLeft_visit. }
  destruct (isLeftRight key _) as [[|]|]; cbn [bind leftOf];
    try discriminate.
  { destruct (rotateLeft l) as [l'|] eqn:El; cbn [bind setLeft];
      try discriminate.
    intros H. apply rotateRight_visit in H. rewrite H. simpl.
    now rewrite (rotateLeft_visit _ El). }
  destruct (isRightLeft key _) as [[|]|]; cbn [bind rightOf];
    try discriminate.
  { destruct (rotateRight r) as [r'|] eqn:Er; cbn [bind setRight];
      try discriminate.
    intros H. apply rotateLeft_visit in H. rewrite H. simpl.
    now rewrite (rotateRight_visit _ Er). }
  now intros [= <-].
Qed.

Lemma AllKeys_below (k : string) (t : AVLNode) :
  AllKeys (fun x => Key.lt x k) t -> keysBelow k (visitInOrder t).
Proof.
  intros H. apply Forall_forall. intros [x v] Hin.
  rewrite AllKeys_In in H. apply H. unfold keysOf.
  apply in_map_iff. exists (x, v). auto.
Qed.

Lemma AllKeys_above (k : string) (t : AVLNode) :
  AllKeys (fun x => Key.lt k x) t ->
  Forall (fun e => Key.lt k (fst e)) (visitInOrder t).
Proof.
  intros H. apply Forall_forall. intros [x v] Hin.
  rewrite AllKeys_In in H. apply H. unfold keysOf.
  apply in_map_iff. exists (x, v). auto.
Qed.

Lemma insertEntry_left (key k : string) (value v : Course)
    (l1 l2 : list (string * Course)) :
  Key.lt key k ->
  insertEntry key value (l1 ++ (k, v) :: l2) =
  insertEntry key value l1 ++ (k, v) :: l2.
Proof.
  intros Hlt. induction l1 as [|[k1 v1] l1 IH]; simpl.
  - now rewrite (KeyFacts.ltb_true Hlt).
  - destruct (Key.ltb key k1); [reflexivity|].
    destruct (Key.gtb key k1); [|reflexivity].
    now rewrite IH.
Qed.

Lemma insertEntry_passes (key : string) (value : Course)
    (l1 l2 : list (string * Course)) :
  keysBelow key l1 ->
  insertEntry key value (l1 ++ l2) = l1 ++ insertEntry key value l2.
Proof.
  induction 1 as [|[k1 v1] l1 Hk _ IH]; simpl; [reflexivity|].
  simpl in Hk.
  rewrite (KeyFacts.ltb_false Hk), (KeyFacts.gtb_true Hk).
  now rewrite IH.
Qed.

Lemma keysBelow_trans (k k' : string) (l : list (string * Course)) :
  Key.lt k k' -> keysBelow k l -> keysBelow k' l.
Proof.
  intros Hlt. apply Forall_impl. intros e He.
  exact (KeyFacts.lt_trans He Hlt).
Qed.

Lemma avlInsert_visit (key : string) (value : Course) (t t' : AVLNode) :
  BSTOrder t -> avlInsert t key value = Some t' ->
  visitInOrder t' = insertEntry key value (visitInOrder t).
Proof.
  revert t'. induction t as [|k v h l IHl r IHr]; intros t' B; simpl.
  - now intros [= <-].
  - destruct B as (Hl & Hr & Bl & Br).
    destruct (KeyFacts.cmp key k) as [Hlt|Hgt|Heq].
    + destruct (avlInsert l key value) as [l'|]; cbn [bind];
        try discriminate.
      intros H. apply rebalance_visit in H. rewrite H. simpl.
      rewrite (IHl l' Bl eq_refl). now rewrite insertEntry_left.
    + destruct (avlInsert r key value) as [r'|]; cbn [bind];
        try discriminate.
      intros H. apply rebalance_visit in H. rewrite H. simpl.
      rewrite (IHr r' Br eq_refl).
      rewrite insertEntry_passes.
      2:{ apply keysBelow_trans with k; [trivial|].
          now apply AllKeys_below. }
      simpl. now rewrite (KeyFacts.ltb_false Hgt), (KeyFacts.gtb_true Hgt).
    + intros [= <-]. simpl. subst k.
      rewrite insertEntry_passes by now apply AllKeys_below.
      simpl. now rewrite KeyFacts.ltb_irrefl, KeyFacts.gtb_irrefl.
Qed.

Lemma assoc_app (key : string) (l1 l2 : list (string * Course)) :
  assoc key (l1 ++ l2) =
  match assoc key l1 with Some v => Some v | None => assoc key l2 end.
Proof.
  induction l1 as [|[k v] l1 IH]; simpl; [reflexivity|].
  now destruct (String.eqb k key).
Qed.

Lemma assoc_absent (key : string) (l : list (string * Course)) :
  ~ In key (map fst l) <-> assoc key l = None.
Proof.
  induction l as [|[k v] l IH]; simpl; [tauto|].
  destruct (String.eqb_spec k key) as [->|Hne].
  - split; [tauto | discriminate].
  - rewrite <- IH. tauto.
Qed.

Lemma assoc_In (key : string) (v : Course) (l : list (string * Course)) :
  assoc key l = Some v -> In (key, v) l.
Proof.
  induction l as [|[k w] l IH]; simpl; [discriminate|].
  destruct (String.eqb_spec k key) as [->|Hne].
  - intros [= ->]. now left.
  - auto.
Qed.

Lemma avlFind_node (t n : AVLNode) (key : string) :
  avlFind t key = Some n ->
  exists v h l r, n = Node key v h l r.
Proof.
  induction t as [|k v h l IHl r IHr]; simpl; [discriminate|].
  destruct (KeyFacts.cmp key k) as [Hlt|Hgt|Heq]; auto.
  intros [= <-]. subst k. eauto.
Qed.

(** In a tree in BST order the search finds what the listing holds. *)
Lemma avlFind_assoc (t : AVLNode) (key : string) :
  BSTOrder t ->
  bind (avlFind t key) valueOf = assoc key (visitInOrder t).
Proof.
  induction t as [|k v h l IHl r IHr]; simpl; [reflexivity|].
  intros (Hl & Hr & Bl & Br). rewrite assoc_app. simpl.
  destruct (KeyFacts.cmp key k) as [Hlt|Hgt|Heq].
  - rewrite (IHl Bl).
    destruct (String.eqb_spec k key) as [->|Hne];
      [now destruct (KeyFacts.lt_irrefl Hlt)|].
    assert (assoc key (visitInOrder r) = None) as ->.
    { apply assoc_absent. intros Hin. rewrite AllKeys_In in Hr.
      apply Hr in Hin. exact (KeyFacts.lt_asym Hlt Hin). }
    now destruct (assoc key (visitInOrder l)).
  - rewrite (IHr Br).
    destruct (String.eqb_spec k key) as [->|Hne];
      [now destruct (KeyFacts.lt_irrefl Hgt)|].
    assert (assoc key (visitInOrder l) = None) as ->.
    { apply assoc_absent. intros Hin. rewrite AllKeys_In in Hl.
      apply Hl in Hin. exact (KeyFacts.lt_asym Hgt Hin). }
    reflexivity.
  - subst k. rewrite String.eqb_refl.
    assert (assoc key (visitInOrder l) = None) as ->.
    { apply assoc_absent. intros Hin. rewrite AllKeys_In in Hl.
      apply Hl in Hin. exact (KeyFacts.lt_irrefl Hin). }
    reflexivity.
Qed.

Lemma assoc_insertEntry (key k : string) (v : Course)
    (l : list (string * Course)) :
  assoc key (insertEntry k v l) =
  if String.eqb k key then Some v else assoc key l.
Proof.
  induction l as [|[k0 v0] l IH]; simpl; [reflexivity|].
  destruct (KeyFacts.cmp k k0) as [Hlt|Hgt|Heq]; simpl.
  - reflexivity.
  - rewrite IH.
    destruct (String.eqb_spec k0 key) as [->|Hne]; [|reflexivity].
    destruct (String.eqb_spec k key) as [->|Hne]; [|reflexivity].
    now destruct (KeyFacts.lt_irrefl Hgt).
  - subst k0. now destruct (String.eqb k key).
Qed.

Lemma keys_insertEntry (x k : string) (v : Course)
    (l : list (string * Course)) :
  In x (map fst (insertEntry k v l)) <-> x = k \/ In x (map fst l).
Proof.
  induction l as [|[k0 v0] l IH]; simpl; [intuition|].
  destruct (KeyFacts.cmp k k0) as [Hlt|Hgt|Heq]; simpl.
  - intuition.
  - rewrite IH. intuition.
  - subst k0. intuition.
Qed.

Lemma assoc_insertEntries_other (key : string)
    (ops l : list (string * Course)) :
  ~ In key (map fst ops) ->
  assoc key (insertEntries ops l) = assoc key l.
Proof.
  unfold insertEntries. revert l.
  induction ops as [|[k v] ops IH]; intros l Hnot; simpl; [reflexivity|].
  simpl in Hnot. rewrite IH by tauto. rewrite assoc_insertEntry.
  destruct (String.eqb_spec k key); [tauto | reflexivity].
Qed.

Lemma insertEntries_app (ops1 ops2 l : list (string * Course)) :
  insertEntries (ops1 ++ ops2) l = insertEntries ops2 (insertEntries ops1 l).
Proof. apply fold_left_app. Qed.

Lemma keys_insertEntries (x : string) (ops l : list (string * Course)) :
  In x (map fst (insertEntries ops l)) <->
  In x (map fst ops) \/ In x (map fst l).
Proof.
  unfold insertEntries. revert l.
  induction ops as [|[k v] ops IH]; intros l; simpl; [tauto|].
  rewrite IH, keys_insertEntry. intuition.
Qed.

(** BST order is the strict ascent of the listing. *)
Lemma BSTOrder_sorted (t : AVLNode) :
  BSTOrder t -> StronglySorted Key.lt (keysOf t).
Proof.
  unfold keysOf.
  induction t as [|k v h l IHl r IHr]; simpl; [constructor|].
  intros (Hl & Hr & Bl & Br). rewrite map_app. simpl.
  specialize (IHl Bl). specialize (IHr Br).
  rewrite AllKeys_In in Hl, Hr. unfold keysOf in Hl, Hr.
  revert IHl Hl. generalize (map fst (visitInOrder l)) as xs.
  induction xs as [|x xs IH]; simpl; intros Sx Hx.
  - constructor; [trivial|]. apply Forall_forall. auto.
  - inversion Sx as [|? ? Sxs Fx]; subst.
    constructor; [auto|].
    apply Forall_app. split; [trivial|].
    constructor; [auto|].
    apply Forall_forall. intros y Hy.
    apply KeyFacts.lt_trans with k; auto.
Qed.

Lemma sorted_NoDup (l : list string) :
  StronglySorted Key.lt l -> NoDup l.
Proof.
  induction 1 as [|x l S IH F]; constructor; [|trivial].
  intros Hin. rewrite Forall_forall in F.
  exact (KeyFacts.lt_irrefl (F x Hin)).
Qed.

Lemma visit_length (t : AVLNode) :
  List.length (visitInOrder t) = size t.
Proof.
  induction t as [|k v h l IHl r IHr]; simpl; [reflexivity|].
  rewrite length_app. simpl. lia.
Qed.

Lemma append_assoc (a b c : string) :
  ((a ++ b) ++ c = a ++ (b ++ c))%string.
Proof. induction a as [|x a IH]; simpl; [reflexivity|]. now rewrite IH. Qed.

Lemma append_empty_r (a : string) : (a ++ "")%string = a.
Proof. induction a as [|x a IH]; simpl; [reflexivity|]. now rewrite IH. Qed.

Lemma concat_app (l1 l2 : list string) :
  String.concat "" (l1 ++ l2) =
  (String.concat "" l1 ++ String.concat "" l2)%string.
Proof.
  induction l1 as [|x l1 IH]; simpl; [reflexivity|].
  destruct l1 as [|y l1].
  - simpl. destruct l2; simpl; [|reflexivity].
    now rewrite append_empty_r.
  - simpl in *. rewrite IH. now rewrite append_assoc.
Qed.

(** The text written by [avlInOrder] is one line per visited node. *)
Lemma avlInOrder_lines (t : AVLNode) :
  avlInOrder t = String.concat "" (map listingLine (visitInOrder t)).
Proof.
  induction t as [|k v h l IHl r IHr]; simpl; [reflexivity|].
  rewrite map_app, concat_app, IHl, IHr. simpl.
  destruct (map listingLine (visitInOrder r)) eqn:E; [|reflexivity].
  simpl. unfold listingLine. simpl. now rewrite append_empty_r.
Qed.

End Listing.

(* ================================================================== *)
(** ** Sequences of inserts *)

Section Sequences.

Lemma avlInsert_preserves (key : string) (value : Course) (t : AVLNode) :
  Invariants t ->
  exists t', avlInsert t key value = Some t' /\ Invariants t' /\
    visitInOrder t' = insertEntry key value (visitInOrder t).
Proof.
  intros (B & HC & Bal).
  destruct (avlInsert_heights key value t HC Bal)
    as (t' & E & HC' & Bal' & _).
  exists t'. split; [exact E|]. split.
  - split; [|tauto]. now apply (avlInsert_order _ _ _ E).
  - now apply avlInsert_visit.
Qed.

Lemma insertAll_preserves (ops : list (string * Course)) (t : AVLNode) :
  Invariants t ->
  exists t', insertAll t ops = Some t' /\ Invariants t' /\
    visitInOrder t' = insertEntries ops (visitInOrder t).
Proof.
  revert t. induction ops as [|[k v] ops IH]; intros t Inv; simpl.
  - exists t. auto.
  - destruct (avlInsert_preserves k v Inv) as (t1 & -> & Inv1 & V1).
    cbn [bind]. destruct (IH t1 Inv1) as (t' & E & Inv' & V').
    exists t'. rewrite V', V1. auto.
Qed.

Lemma Invariants_Null : Invariants Null.
Proof. repeat split. Qed.

Lemma insertAll_from_empty (ops : list (string * Course)) :
  exists t, insertAll Null ops = Some t /\ Invariants t /\
    visitInOrder t = insertEntries ops [].
Proof. apply (insertAll_preserves ops Invariants_Null). Qed.

Lemma avlFind_missing (t : AVLNode) (key : string) :
  bind (avlFind t key) valueOf = None -> avlFind t key = None.
Proof.
  destruct (avlFind t key) as [n|] eqn:E; [|reflexivity].
  destruct (avlFind_node _ _ E) as (v & h & l & r & ->). discriminate.
Qed.

Lemma avlFind_value (t : AVLNode) (key : string) (v : Course) :
  bind (avlFind t key) valueOf = Some v ->
  exists n, avlFind t key = Some n /\ keyOf n = Some key /\
    valueOf n = Some v.
Proof.
  destruct (avlFind t key) as [n|] eqn:E; [|discriminate].
  destruct (avlFind_node _ _ E) as (w & h & l & r & ->). simpl.
  intros [= ->]. eauto.
Qed.

Lemma In_assoc (k : string) (v : Course) (l : list (string * Course)) :
  NoDup (map fst l) -> In (k, v) l -> assoc k l = Some v.
Proof.
  induction l as [|[k0 v0] l IH]; simpl; [tauto|].
  intros ND [[= -> ->]|Hin].
  - now rewrite String.eqb_refl.
  - inversion ND as [|? ? Hnot ND']; subst.
    destruct (String.eqb_spec k0 k) as [->|Hne]; [|auto].
    destruct Hnot. apply in_map_iff. exists (k, v). auto.
Qed.

End Sequences.

(* ================================================================== *)
(** ** Properties of the tree store *)

(** C1. Invariant preservation: starting from the empty tree, after each
    insert of any sequence of inserts (any keys, any payloads) the tree
    is returned, and at every node it is in BST order, its height field
    is one more than the larger child height (0 for an absent child),
    and the child heights differ by at most one. *)
Theorem inserts_preserve_invariants
    (ops : list (string * Course)) (n : nat) :
  exists t, insertAll Null (firstn n ops) = Some t /\
    BSTOrder t /\ HeightCorrect t /\ Balanced t.
Proof.
  destruct (insertAll_from_empty (firstn n ops)) as (t & E & Inv & _).
  exists t. split; [exact E | exact Inv].
Qed.

(** C2. Lookup correctness: after any sequence of inserts, [avlFind]
    on a key returns the node holding the payload of the most recent
    insert of that key, and returns the null result, without fault, for
    a key that was never inserted. *)
Theorem avlFind_after_inserts (ops : list (string * Course)) (key : string) :
  exists t, insertAll Null ops = Some t /\
    (forall before v after,
        ops = before ++ (key, v) :: after -> ~ In key (map fst after) ->
        exists n, avlFind t key = Some n /\ keyOf n = Some key /\
          valueOf n = Some v) /\
    (~ In key (map fst ops) -> avlFind t key = None).
Proof.
  destruct (insertAll_from_empty ops) as (t & E & (B & _) & V).
  exists t. split; [exact E|]. split.
  - intros before v after -> Hnot. apply avlFind_value.
    rewrite avlFind_assoc, V by exact B.
    rewrite insertEntries_app. unfold insertEntries at 1. simpl.
    fold (insertEntries after
            (insertEntry key v (insertEntries before []))).
    rewrite assoc_insertEntries_other by trivial.
    rewrite assoc_insertEntry. now rewrite String.eqb_refl.
  - intros Hnot. apply avlFind_missing.
    rewrite avlFind_assoc, V by exact B.
    now rewrite assoc_insertEntries_other.
Qed.

(** C4. Order round-trip: for the tree built by any sequence of inserts,
    the in-order traversal visits each node once (as many entries as
    nodes, no key twice), in strictly ascending key order, with an entry
    for a key exactly when that key was inserted, each entry being the
    stored payload; the text written is one line per entry. *)
Theorem inorder_ascending_complete (ops : list (string * Course)) :
  exists t, insertAll Null ops = Some t /\
    StronglySorted Key.lt (keysOf t) /\
    NoDup (keysOf t) /\
    List.length (visitInOrder t) = size t /\
    (forall k, In k (keysOf t) <-> In k (map fst ops)) /\
    (forall k v, In (k, v) (visitInOrder t) <->
                 bind (avlFind t k) valueOf = Some v) /\
    avlInOrder t = String.concat "" (map listingLine (visitInOrder t)).
Proof.
  destruct (insertAll_from_empty ops) as (t & E & (B & _) & V).
  pose proof (BSTOrder_sorted _ B) as S.
  pose proof (sorted_NoDup S) as ND.
  exists t. repeat split; trivial.
  - apply visit_length.
  - unfold keysOf. rewrite V, keys_insertEntries. simpl. tauto.
  - unfold keysOf. rewrite V, keys_insertEntries. simpl. tauto.
  - rewrite avlFind_assoc by exact B. now apply In_assoc.
  - rewrite avlFind_assoc by exact B. apply assoc_In.
  - apply avlInOrder_lines.
Qed.

(** C7. Totality: on a tree satisfying the invariants, [avlInsert]
    returns for every key (the empty string included) and every payload:
    no rotation or case test reads through a null child, and the
    returned tree satisfies the three invariants again. *)
Theorem avlInsert_total (t : AVLNode) (key : string) (value : Course) :
  Invariants t ->
  exists t', avlInsert t key value = Some t' /\
    BSTOrder t' /\ HeightCorrect t' /\ Balanced t'.
Proof.
  intros Inv. destruct (avlInsert_preserves key value Inv) as (t' & E & I & _).
  exists t'. split; [exact E | exact I].
Qed.

(* ------------------------------------------------------------------ *)
(** *** The log of rotations and the overwrite of a present key *)

Section Overwrite.

Lemma logged_erase (mk : string -> Rotation)
    (rot : AVLNode -> option AVLNode) (n : AVLNode) :
  (rot Null = None) ->
  option_map fst (logged mk rot n) = rot n.
Proof.
  intros Hnull. unfold logged. destruct n as [|k v h l r]; simpl.
  - now rewrite Hnull.
  - now destruct (rot (Node k v h l r)).
Qed.

Lemma rebalanceLog_erase (key : string) (n : AVLNode) :
  option_map fst (rebalanceLog key n) = rebalance key n.
Proof.
  unfold rebalanceLog, rebalance.
  destruct (isLeftLeft key _) as [[|]|]; cbn [bind]; trivial.
  { now apply logged_erase. }
  destruct (isRightRight key _) as [[|]|]; cbn [bind]; trivial.
  { now apply logged_erase. }
  destruct (isLeftRight key _) as [[|]|]; cbn [bind]; trivial.
  { destruct (leftOf _) as [l|]; cbn [bind]; trivial.
    pose proof (@logged_erase LeftRotation rotateLeft l eq_refl) as E1.
    destruct (logged LeftRotation rotateLeft l) as [[l' g1]|];
      simpl in E1; rewrite <- E1; cbn [bind fst snd]; trivial.
    destruct (setLeft _ l') as [n'|]; cbn [bind]; trivial.
    pose proof (@logged_erase RightRotation rotateRight n' eq_refl) as E2.
    destruct (logged RightRotation rotateRight n') as [[t g2]|];
      simpl in E2; rewrite <- E2; reflexivity. }
  destruct (isRightLeft key _) as [[|]|]; cbn [bind]; trivial.
  destruct (rightOf _) as [r|]; cbn [bind]; trivial.
  pose proof (@logged_erase RightRotation rotateRight r eq_refl) as E1.
  destruct (logged RightRotation rotateRight r) as [[r' g1]|];
    simpl in E1; rewrite <- E1; cbn [bind fst snd]; trivial.
  destruct (setRight _ r') as [n'|]; cbn [bind]; trivial.
  pose proof (@logged_erase LeftRotation rotateLeft n' eq_refl) as E2.
  destruct (logged LeftRotation rotateLeft n') as [[t g2]|];
    simpl in E2; rewrite <- E2; reflexivity.
Qed.

(** The logging version computes the tree of [avlInsert]. *)
Lemma avlInsertLog_erase (key : string) (value : Course) (t : AVLNode) :
  option_map fst (avlInsertLog t key value) = avlInsert t key value.
Proof.
  induction t as [|k v h l IHl r IHr]; simpl; [reflexivity|].
  destruct (Key.ltb key k).
  - rewrite <- IHl.
    destruct (avlInsertLog l key value) as [[l' g]|]; cbn [bind option_map fst];
      trivial.
    rewrite <- rebalanceLog_erase.
    now destruct (rebalanceLog key _) as [[t' g']|].
  - destruct (Key.gtb key k); [|reflexivity].
    rewrite <- IHr.
    destruct (avlInsertLog r key value) as [[r' g]|]; cbn [bind option_map fst];
      trivial.
    rewrite <- rebalanceLog_erase.
    now destruct (rebalanceLog key _) as [[t' g']|].
Qed.

Lemma nodeHeight_overwrite (t : AVLNode) (key : string) (value : Course) :
  nodeHeight (overwrite t key value) = nodeHeight t.
Proof. now destruct t. Qed.

Lemma shapeOf_overwrite (t : AVLNode) (key : string) (value : Course) :
  shapeOf (overwrite t key value) = shapeOf t.
Proof.
  induction t as [|k v h l IHl r IHr]; simpl; [reflexivity|].
  now rewrite IHl, IHr.
Qed.

Lemma overwrite_absent (t : AVLNode) (key : string) (value : Course) :
  ~ In key (keysOf t) -> overwrite t key value = t.
Proof.
  unfold keysOf.
  induction t as [|k v h l IHl r IHr]; simpl; [reflexivity|].
  rewrite map_app, in_app_iff. simpl. intros Hnot.
  rewrite IHl, IHr by tauto.
  destruct (String.eqb_spec k key); [tauto | reflexivity].
Qed.

(** A node whose height field is right and whose children are within
    one of each other passes all four tests. *)
Lemma rebalanceLog_fallthrough (key k : string) (v : Course) (h : Z)
    (l r : AVLNode) :
  h = 1 + Z.max (nodeHeight l) (nodeHeight r) ->
  Z.abs (nodeHeight l - nodeHeight r) <= 1 ->
  rebalanceLog key (Node k v h l r) = Some (Node k v h l r, []).
Proof.
  intros -> Hb.
  unfold rebalanceLog, isLeftLeft, isRightRight, isLeftRight, isRightLeft.
  cbn [updateHeight balanceFactor].
  rewrite !Z.gtb_ltb.
  destruct (Z.ltb_spec 1 (nodeHeight l - nodeHeight r)); [lia|].
  destruct (Z.ltb_spec (nodeHeight l - nodeHeight r) (-1)); [lia|].
  reflexivity.
Qed.

Lemma avlInsertLog_overwrite (key : string) (value : Course) (t : AVLNode) :
  Invariants t -> In key (keysOf t) ->
  avlInsertLog t key value = Some (overwrite t key value, []).
Proof.
  unfold keysOf.
  induction t as [|k v h l IHl r IHr]; simpl; [tauto|].
  intros ((Hl & Hr & Bl & Br) & (Eh & HCl & HCr) & (Bh & Bal & Bar)).
  rewrite map_app, in_app_iff. simpl. intros Hin.
  rewrite AllKeys_In in Hl, Hr. unfold keysOf in Hl, Hr.
  destruct (KeyFacts.cmp key k) as [Hlt|Hgt|Heq].
  - assert (In key (map fst (visitInOrder l))) as Hinl.
    { destruct Hin as [Hin|[->|Hin]]; trivial.
      - now destruct (KeyFacts.lt_irrefl Hlt).
      - destruct (KeyFacts.lt_asym Hlt (Hr _ Hin)). }
    rewrite IHl by (unfold Invariants; tauto). cbn [bind fst snd].
    rewrite rebalanceLog_fallthrough
      by now rewrite nodeHeight_overwrite.
    cbn [bind fst snd app].
    rewrite (@overwrite_absent r).
    2:{ intros Hinr. exact (KeyFacts.lt_asym Hlt (Hr _ Hinr)). }
    destruct (String.eqb_spec k key) as [->|_]; [|reflexivity].
    now destruct (KeyFacts.lt_irrefl Hlt).
  - assert (In key (map fst (visitInOrder r))) as Hinr.
    { destruct Hin as [Hin|[->|Hin]]; trivial.
      - destruct (KeyFacts.lt_asym Hgt (Hl _ Hin)).
      - now destruct (KeyFacts.lt_irrefl Hgt). }
    rewrite IHr by (unfold Invariants; tauto). cbn [bind fst snd].
    rewrite rebalanceLog_fallthrough
      by now rewrite nodeHeight_overwrite.
    cbn [bind fst snd app].
    rewrite (@overwrite_absent l).
    2:{ intros Hinl. exact (KeyFacts.lt_asym Hgt (Hl _ Hinl)). }
    destruct (String.eqb_spec k key) as [->|_]; [|reflexivity].
    now destruct (KeyFacts.lt_irrefl Hgt).
  - subst k. rewrite String.eqb_refl.
    rewrite (@overwrite_absent l), (@overwrite_absent r); trivial.
    + intros Hinr. exact (KeyFacts.lt_irrefl (Hr _ Hinr)).
    + intros Hinl. exact (KeyFacts.lt_irrefl (Hl _ Hinl)).
Qed.

End Overwrite.

(** C3. Overwrite in place: in a tree built by inserts, inserting a key
    that is present replaces the payload of the node with that key and
    nothing else: keys, height fields and links are as before, no
    rotation is performed, [avlFind] on the key returns the new payload
    and every other key keeps its payload. *)
Theorem insert_present_key_overwrites
    (ops : list (string * Course)) (t : AVLNode)
    (key : string) (value : Course) :
  insertAll Null ops = Some t -> In key (keysOf t) ->
  exists t', avlInsert t key value = Some t' /\
    t' = overwrite t key value /\
    shapeOf t' = shapeOf t /\
    avlInsertLog t key value = Some (t', []) /\
    (exists n, avlFind t' key = Some n /\ valueOf n = Some value) /\
    (forall k, k <> key ->
       bind (avlFind t' k) valueOf = bind (avlFind t k) valueOf).
Proof.
  intros E Hin.
  destruct (insertAll_from_empty ops) as (t0 & E0 & Inv & _).
  rewrite E in E0. injection E0 as <-.
  pose proof (@avlInsertLog_overwrite key value t Inv Hin) as EL.
  pose proof (avlInsertLog_erase key value t) as EE. rewrite EL in EE.
  simpl in EE. symmetry in EE.
  destruct (avlInsert_preserves key value Inv) as (t' & E' & Inv' & V').
  rewrite EE in E'. injection E' as <-.
  exists (overwrite t key value).
  repeat split; trivial.
  - apply shapeOf_overwrite.
  - destruct (@avlFind_value (overwrite t key value) key value)
      as (n & En & _ & Ev); [|eauto].
    rewrite avlFind_assoc, V' by apply Inv'.
    rewrite assoc_insertEntry. now rewrite String.eqb_refl.
  - intros k Hne.
    rewrite !avlFind_assoc, V' by (apply Inv' || apply Inv).
    rewrite assoc_insertEntry.
    destruct (String.eqb_spec key k); [congruence | reflexivity].
Qed.

(** C10. The four rebalancing tests are exhaustive.  Take a node of a
    tree satisfying the invariants, and the node [avlInsert] is left
    with after inserting below it and recomputing its height.  If its
    balance factor exceeds 1 in magnitude, then the child on the
    taller side exists and its key is not the inserted key, exactly one
    of the four tests holds, and the rebalancing returns a node whose
    children are within one of each other: the fall-through sees
    balanced nodes only. *)
Theorem rotation_cases_exhaustive
    (k : string) (v : Course) (h : Z) (l r : AVLNode)
    (key : string) (value : Course) (child node : AVLNode) :
  Invariants (Node k v h l r) ->
  (Key.lt key k /\ avlInsert l key value = Some child /\
   node = updateHeight (Node k v h child r)) \/
  (Key.lt k key /\ avlInsert r key value = Some child /\
   node = updateHeight (Node k v h l child)) ->
  1 < Z.abs (balanceFactor node) ->
  avlInsert (Node k v h l r) key value = rebalance key node /\
  tallerChild node = child /\
  (exists kc, keyOf child = Some kc /\ kc <> key) /\
  holding (caseTests key node) = Some 1%nat /\
  exists t', rebalance key node = Some t' /\
    Z.abs (balanceFactor t') <= 1.
Proof.
  intros ((Hl & Hr & Bl & Br) & (Eh & HCl & HCr) & (Bh & Bal & Bar)).
  pose proof (nodeHeight_nonneg _ HCl) as Hl0.
  pose proof (nodeHeight_nonneg _ HCr) as Hr0.
  intros [(Hlt & E & ->)|(Hgt & E & ->)] Hbf.
  - destruct (avlInsert_heights key value l HCl Bal)
      as (l' & E' & HCl' & Bal' & G).
    rewrite E in E'. injection E' as <-.
    destruct (@tests_after_left key k v h (nodeHeight l) child r)
      as (T1 & T2 & T3); trivial.
    destruct (@rebalance_left key k v h (nodeHeight l) child r)
      as (t' & Et & HC' & B' & _); trivial.
    rewrite rebalance_updated. repeat split; trivial.
    + cbn [avlInsert]. rewrite (KeyFacts.ltb_true Hlt), E. reflexivity.
    + exists t'. split; [exact Et|].
      destruct t'; simpl in *; [lia | tauto].
  - destruct (avlInsert_heights key value r HCr Bar)
      as (r' & E' & HCr' & Bar' & G).
    rewrite E in E'. injection E' as <-.
    destruct (@tests_after_right key k v h (nodeHeight r) l child)
      as (T1 & T2 & T3); trivial.
    destruct (@rebalance_right key k v h (nodeHeight r) l child)
      as (t' & Et & HC' & B' & _); trivial.
    rewrite rebalance_updated. repeat split; trivial.
    + cbn [avlInsert].
      rewrite (KeyFacts.ltb_false Hgt), (KeyFacts.gtb_true Hgt), E.
      reflexivity.
    + exists t'. split; [exact Et|].
      destruct t'; simpl in *; [lia | tauto].
Qed.

(* ================================================================== *)
(** ** The record parser *)

Section Parser.

Lemma toupper_idem (c : ascii) : toupper (toupper c) = toupper c.
Proof. destruct c as [[] [] [] [] [] [] [] []]; reflexivity. Qed.

Lemma isspace_toupper (c : ascii) : isspace (toupper c) = isspace c.
Proof. destruct c as [[] [] [] [] [] [] [] []]; reflexivity. Qed.

Lemma toUpper_idem (s : string) : toUpper (toUpper s) = toUpper s.
Proof.
  induction s as [|c s IH]; simpl; [reflexivity|].
  now rewrite toupper_idem, IH.
Qed.

Lemma isEmpty_toUpper (s : string) : isEmpty (toUpper s) = isEmpty s.
Proof. now destruct s. Qed.

Lemma isEmpty_false (s : string) : isEmpty s = false <-> s <> "".
Proof. destruct s; simpl; split; congruence. Qed.

Lemma noSpaces_toUpper (s : string) : noSpaces (toUpper s) = noSpaces s.
Proof.
  induction s as [|c s IH]; simpl; [reflexivity|].
  now rewrite isspace_toupper, IH.
Qed.

Lemma dropTrailing_noSpaces (s : string) :
  noSpaces s = true -> dropTrailing s = s.
Proof.
  induction s as [|c s IH]; simpl; [reflexivity|].
  intros H. apply andb_true_iff in H. destruct H as [Hc Hs].
  rewrite (IH Hs). apply negb_true_iff in Hc. now rewrite Hc.
Qed.

Lemma trim_noSpaces (s : string) : noSpaces s = true -> trim s = s.
Proof.
  intros H. unfold trim.
  assert (skipLeading s = s) as ->.
  { destruct s as [|c s]; simpl in *; [reflexivity|].
    apply andb_true_iff in H. destruct H as [Hc _].
    apply negb_true_iff in Hc. now rewrite Hc. }
  now apply dropTrailing_noSpaces.
Qed.

Lemma noSpaces_push_back (s : string) (c : ascii) :
  noSpaces s = true -> isspace c = false ->
  noSpaces (push_back s c) = true.
Proof.
  intros Hs Hc. unfold push_back.
  induction s as [|x s IH]; simpl in *.
  - now rewrite Hc.
  - apply andb_true_iff in Hs. destruct Hs as [Hx Hs].
    now rewrite Hx, IH.
Qed.

Lemma flush_tokens (token : string) :
  noSpaces token = true ->
  Forall (fun t => isEmpty t = false /\ noSpaces t = true) (flush token).
Proof.
  intros H. unfold flush. rewrite (trim_noSpaces _ H).
  destruct (isEmpty token) eqn:E; constructor; auto.
Qed.

Lemma splitPrereqFrom_tokens (s token : string) :
  noSpaces token = true ->
  Forall (fun t => isEmpty t = false /\ noSpaces t = true)
         (splitPrereqFrom s token).
Proof.
  revert token. induction s as [|c s IH]; intros token H; simpl.
  - now apply flush_tokens.
  - destruct (isDelimiter c) eqn:Ed.
    + apply Forall_app. split; [now apply flush_tokens | now apply IH].
    + apply IH. apply noSpaces_push_back; trivial.
      unfold isDelimiter in Ed. now destruct (isspace c).
Qed.

Lemma prereqsOfField_normalized (f : string) :
  Forall Normalized (prereqsOfField f).
Proof.
  unfold prereqsOfField. destruct (isEmpty f); [constructor|].
  apply Forall_forall. intros p Hp.
  apply in_map_iff in Hp. destruct Hp as (t & <- & Ht).
  apply filter_In in Ht. destruct Ht as [Ht _].
  pose proof (@splitPrereqFrom_tokens f "" eq_refl) as F.
  rewrite Forall_forall in F. destruct (F t Ht) as [Hne Hns].
  repeat split.
  - apply isEmpty_false. now rewrite isEmpty_toUpper.
  - apply trim_noSpaces. now rewrite noSpaces_toUpper.
  - apply toUpper_idem.
Qed.

Lemma insertSorted_In (x y : string) (l : list string) :
  In y (insertSorted x l) -> y = x \/ In y l.
Proof.
  induction l as [|z l IH]; simpl; [intuition|].
  destruct (Key.ltb z x); simpl; intuition.
Qed.

Lemma sort_In (y : string) (l : list string) : In y (sort l) -> In y l.
Proof.
  induction l as [|x l IH]; simpl; [trivial|].
  intros H. apply insertSorted_In in H. intuition.
Qed.

Lemma unique_In (y : string) (l : list string) : In y (unique l) -> In y l.
Proof.
  induction l as [|x l IH]; [trivial|].
  change (unique (x :: l)) with
    (match l with
     | [] => [x]
     | z :: _ => if String.eqb x z then unique l else x :: unique l
     end).
  destruct l as [|z l]; [trivial|].
  destruct (String.eqb x z); simpl; intros H; simpl in IH; intuition.
Qed.

Lemma insertSorted_HdRel (x y : string) (l : list string) :
  HdRel notAfter y l -> notAfter y x -> HdRel notAfter y (insertSorted x l).
Proof.
  intros H Hyx. destruct l as [|z l]; simpl.
  - now constructor.
  - inversion H; subst. destruct (Key.ltb z x); now constructor.
Qed.

Lemma insertSorted_sorted (x : string) (l : list string) :
  Sorted notAfter l -> Sorted notAfter (insertSorted x l).
Proof.
  induction 1 as [|y l S IH H]; simpl.
  - repeat constructor.
  - destruct (Key.ltb y x) eqn:E.
    + constructor; [exact IH|].
      apply insertSorted_HdRel; [exact H|].
      apply KeyFacts.ltb_false. now apply KeyFacts.ltb_lt.
    + constructor; [now constructor|]. constructor. exact E.
Qed.

Lemma sort_sorted (l : list string) : Sorted notAfter (sort l).
Proof.
  induction l as [|x l IH]; simpl; [constructor|].
  now apply insertSorted_sorted.
Qed.

Lemma unique_head (x : string) (l : list string) :
  exists tl, unique (x :: l) = x :: tl.
Proof.
  revert x. induction l as [|y l IH]; intros x.
  - now exists [].
  - change (unique (x :: y :: l)) with
      (if String.eqb x y then unique (y :: l) else x :: unique (y :: l)).
    destruct (String.eqb_spec x y) as [->|Hne]; [apply IH | eauto].
Qed.

Lemma unique_sorted (l : list string) :
  Sorted notAfter l -> Sorted Key.lt (unique l).
Proof.
  induction 1 as [|x l S IH H]; [constructor|].
  destruct l as [|y l]; [repeat constructor|].
  change (unique (x :: y :: l)) with
    (if String.eqb x y then unique (y :: l) else x :: unique (y :: l)).
  destruct (String.eqb_spec x y) as [->|Hne]; [exact IH|].
  constructor; [exact IH|].
  destruct (unique_head y l) as (tl & ->). constructor.
  inversion H as [|? ? Hxy]; subst. unfold notAfter in Hxy.
  destruct (KeyFacts.cmp y x) as [Hlt|Hgt|Heq]; congruence.
Qed.

Lemma lt_transitive : Relations_1.Transitive Key.lt.
Proof. intros a b c. apply KeyFacts.lt_trans. Qed.

(** X8.  What does hold of every accepted line: the number is not empty and
    is upper-cased; the prerequisites are non-empty, trimmed and
    upper-cased, in strictly ascending order. *)
Lemma parseCourseLine_contract (rawLine : string) (c : Course) :
  parseCourseLine rawLine = Parsed c ->
  number c <> "" /\ toUpper (number c) = number c /\
  Forall Normalized (prerequisites c) /\
  StronglySorted Key.lt (prerequisites c).
Proof.
  unfold parseCourseLine.
  destruct (isEmpty _ || isChar "#" _); [discriminate|].
  destruct (map _ (splitCSVLine _)) as [|f0 [|f1 more]]; try discriminate.
  destruct (isEmpty f0) eqn:E0; [discriminate|].
  destruct (isEmpty f1); [discriminate|]. simpl.
  intros [= <-]. simpl. repeat split.
  - apply isEmpty_false. now rewrite isEmpty_toUpper.
  - apply toUpper_idem.
  - apply Forall_forall. intros p Hp.
    apply unique_In, sort_In, in_flat_map in Hp.
    destruct Hp as (f & _ & Hp).
    pose proof (prereqsOfField_normalized f) as F.
    rewrite Forall_forall in F. now apply F.
  - apply Sorted_StronglySorted; [exact lt_transitive|].
    apply unique_sorted, sort_sorted.
Qed.

End Parser.

(* ================================================================== *)
(** ** Concrete scenarios *)

(** C5, as the code behaves.  "C","B","A" performs one right rotation (at
    "C") and "A","B","C" one left rotation (at "A"); both leave "B" at the
    root with "A" on the left and "C" on the right, heights 1, 2, 1.
    "A","C","B" and "C","A","B" reach the same tree by a double
    rotation; in the naming of the source "A","C","B" is the Right Left
    case ([rotateRight] at "C", then [rotateLeft] at "A") and "C","A","B"
    the Left Right case ([rotateLeft] at "A", then [rotateRight] at
    "C"). *)
Theorem three_key_rotation_cases (cA cB cC : Course) :
  insertAll Null [("C", cC); ("B", cB); ("A", cA)] = Some (treeABC cA cB cC) /\
  insertAllLog Null [("C", cC); ("B", cB); ("A", cA)] =
    Some (treeABC cA cB cC, [RightRotation "C"]) /\
  insertAll Null [("A", cA); ("B", cB); ("C", cC)] = Some (treeABC cA cB cC) /\
  insertAllLog Null [("A", cA); ("B", cB); ("C", cC)] =
    Some (treeABC cA cB cC, [LeftRotation "A"]) /\
  insertAll Null [("A", cA); ("C", cC); ("B", cB)] = Some (treeABC cA cB cC) /\
  insertAllLog Null [("A", cA); ("C", cC); ("B", cB)] =
    Some (treeABC cA cB cC, [RightRotation "C"; LeftRotation "A"]) /\
  rotationCase [RightRotation "C"; LeftRotation "A"] = Some RightLeft /\
  insertAll Null [("C", cC); ("A", cA); ("B", cB)] = Some (treeABC cA cB cC) /\
  insertAllLog Null [("C", cC); ("A", cA); ("B", cB)] =
    Some (treeABC cA cB cC, [LeftRotation "A"; RightRotation "C"]) /\
  rotationCase [LeftRotation "A"; RightRotation "C"] = Some LeftRight.
Proof. repeat split. Qed.

(** C5 as stated fails on its labels: inserting "A","C","B" does not
    take the Left Right case.  At the root "A" the test of that case is
    false and the test of Right Left holds. *)
Lemma insert_A_C_B_is_not_left_right :
  ~ (exists t log,
        insertAllLog Null [("A", sampleCourse "A"); ("C", sampleCourse "C");
                           ("B", sampleCourse "B")] = Some (t, log) /\
        rotationCase log = Some LeftRight).
Proof.
  intros (t & log & E & C). vm_compute in E. injection E as <- <-.
  discriminate C.
Qed.

Lemma insert_A_C_B_tests :
  let node := updateHeight
                (Node "A" (sampleCourse "A") 2 Null
                   (Node "C" (sampleCourse "C") 2
                      (newNode "B" (sampleCourse "B")) Null)) in
  insertAll Null [("A", sampleCourse "A"); ("C", sampleCourse "C")] =
    Some (Node "A" (sampleCourse "A") 2 Null (newNode "C" (sampleCourse "C"))) /\
  avlInsert (newNode "C" (sampleCourse "C")) "B" (sampleCourse "B") =
    Some (Node "C" (sampleCourse "C") 2 (newNode "B" (sampleCourse "B")) Null) /\
  isLeftRight "B" node = Some false /\ isRightLeft "B" node = Some true.
Proof. repeat split. Qed.

(** C8. Cross-reference resolution: in the store holding X100 (no
    prerequisites) and X200 (prerequisites X100 and X999), in either
    order of insertion, the report for "X200" finds the course, lists
    X100 with its stored title and X999 with the title unknown; the
    search for "X999" returns the null result. *)
Theorem report_X200_resolves_prerequisites (title100 title200 : string) :
  let c100 := mkCourse "X100" title100 [] in
  let c200 := mkCourse "X200" title200 ["X100"; "X999"] in
  let report root :=
    printCourseInfo root "X200" =
      ("Course: X200 - " ++ title200 ++ newline ++
       "Prerequisites:" ++ newline ++
       String.concat ""
         ["  - X100 - " ++ title100 ++ newline;
          "  - X999 - (title unknown)" ++ newline])%string /\
    bind (avlFind root "X200") valueOf = Some c200 /\
    bind (avlFind root "X100") valueOf = Some c100 /\
    avlFind root "X999" = None in
  (exists root, insertAll Null [("X100", c100); ("X200", c200)] = Some root /\
     report root) /\
  (exists root, insertAll Null [("X200", c200); ("X100", c100)] = Some root /\
     report root).
Proof.
  split; eexists; (split; [reflexivity|]); repeat split.
Qed.

(** The same scenario through the loader and the parser: the two
    records are read from text lines, and the course number typed by
    the user is trimmed and upper-cased before the search. *)
Lemma report_after_loading :
  exists root,
    loadLines Null ["X100,Introduction"; "X200,Data Structures,X100,X999"] =
      Some root /\
    keysOf root = ["X100"; "X200"] /\
    printCourseInfo root " x200 " =
      ("Course: X200 - Data Structures" ++ newline ++
       "Prerequisites:" ++ newline ++
       "  - X100 - Introduction" ++ newline ++
       "  - X999 - (title unknown)" ++ newline)%string.
Proof.
  exists (Node "X100" (mkCourse "X100" "Introduction" []) 2 Null
            (newNode "X200"
               (mkCourse "X200" "Data Structures" ["X100"; "X999"]))).
  repeat split; vm_compute; reflexivity.
Qed.

(** C9 (an accepted line yields a course whose number is non-empty,
    upper-cased and trimmed, and whose prerequisites are non-empty,
    trimmed, upper-cased, sorted and without duplicates) fails on the
    code in one point, the trimming of the number; the rest is
    [parseCourseLine_contract].  A line whose first field is three
    double quotes, a space, [x], a space and three double quotes is
    accepted: the quotes are stripped after the trimming, so the course
    number is [" X "], spaces included.  [printCourseInfo] trims what
    the user types, so this course cannot be looked up by its number. *)
Theorem parseCourseLine_number_not_trimmed :
  parseCourseLine escapedQuoteLine = Parsed (mkCourse " X " "T" []) /\
  trim " X " = "X" /\
  trim " X " <> " X " /\
  exists root,
    loadLines Null [escapedQuoteLine] = Some root /\
    keysOf root = [" X "] /\
    printCourseInfo root " X " =
      ("Course 'X' was not found. " ++
       "Please check the course number and try again." ++ newline)%string.
Proof.
  repeat split; try discriminate.
  eexists. repeat split.
Qed.

(* ------------------------------------------------------------------ *)
(** *** Instances *)

Lemma insert_present_key_overwrites_witness :
  let ops := [("B", sampleCourse "B"); ("A", sampleCourse "A")] in
  let t := Node "B" (sampleCourse "B") 2 (newNode "A" (sampleCourse "A")) Null in
  let value := mkCourse "A" "Algebra" ["B"] in
  insertAll Null ops = Some t /\ In "A" (keysOf t) /\
  exists t', avlInsert t "A" value = Some t' /\
    t' = overwrite t "A" value /\
    shapeOf t' = shapeOf t /\
    avlInsertLog t "A" value = Some (t', []) /\
    (exists n, avlFind t' "A" = Some n /\ valueOf n = Some value) /\
    (forall k, k <> "A" ->
       bind (avlFind t' k) valueOf = bind (avlFind t k) valueOf).
Proof.
  assert (insertAll Null [("B", sampleCourse "B"); ("A", sampleCourse "A")] =
          Some (Node "B" (sampleCourse "B") 2
                  (newNode "A" (sampleCourse "A")) Null)) as E
    by reflexivity.
  assert (In "A" (keysOf (Node "B" (sampleCourse "B") 2
                            (newNode "A" (sampleCourse "A")) Null))) as Hin
    by (simpl; auto).
  split; [exact E|]. split; [exact Hin|].
  exact (@insert_present_key_overwrites _ _ "A"
           (mkCourse "A" "Algebra" ["B"]) E Hin).
Defined.

Lemma avlInsert_total_witness :
  let t := newNode "B" (sampleCourse "B") in
  Invariants t /\
  exists t', avlInsert t "" (sampleCourse "") = Some t' /\
    BSTOrder t' /\ HeightCorrect t' /\ Balanced t'.
Proof.
  assert (Invariants (newNode "B" (sampleCourse "B"))) as Inv.
  { repeat split; simpl; lia. }
  split; [exact Inv|].
  exact (@avlInsert_total _ "" (sampleCourse "") Inv).
Defined.

Lemma rotation_cases_exhaustive_witness :
  let cA := sampleCourse "A" in
  let cB := sampleCourse "B" in
  let cC := sampleCourse "C" in
  let child := Node "B" cB 2 (newNode "A" cA) Null in
  let node := updateHeight (Node "C" cC 2 child Null) in
  Invariants (Node "C" cC 2 (newNode "B" cB) Null) /\
  1 < Z.abs (balanceFactor node) /\
  avlInsert (Node "C" cC 2 (newNode "B" cB) Null) "A" cA =
    rebalance "A" node /\
  tallerChild node = child /\
  (exists kc, keyOf child = Some kc /\ kc <> "A") /\
  holding (caseTests "A" node) = Some 1%nat /\
  exists t', rebalance "A" node = Some t' /\ Z.abs (balanceFactor t') <= 1.
Proof.
  assert (Invariants (Node "C" (sampleCourse "C") 2
                        (newNode "B" (sampleCourse "B")) Null)) as Inv.
  { repeat split; simpl; lia. }
  assert (1 < Z.abs (balanceFactor
                       (updateHeight
                          (Node "C" (sampleCourse "C") 2
                             (Node "B" (sampleCourse "B") 2
                                (newNode "A" (sampleCourse "A")) Null)
                             Null)))) as Hbf
    by (simpl; lia).
  split; [exact Inv|]. split; [exact Hbf|].
  refine (@rotation_cases_exhaustive _ _ _ _ _ "A" (sampleCourse "A")
            _ _ Inv _ Hbf).
  left. repeat split.
Defined.

(* ================================================================== *)
(** ** The height of a tree of N keys *)

Section NodeCount.

Lemma minNodes_step (h : nat) :
  minNodes (S (S h)) = S (minNodes (S h) + minNodes h).
Proof. reflexivity. Qed.

Lemma minNodes_mono (h : nat) : (minNodes h <= minNodes (S h))%nat.
Proof.
  destruct h as [|h]; [simpl; lia|]. rewrite minNodes_step. lia.
Qed.

(** A tree with correct heights and AVL balance has at least
    [minNodes] of its height nodes. *)
Lemma size_minNodes (t : AVLNode) :
  HeightCorrect t -> Balanced t ->
  (minNodes (Z.to_nat (nodeHeight t)) <= size t)%nat.
Proof.
  induction t as [|k v h l IHl r IHr]; simpl; [lia|].
  intros (-> & HCl & HCr) (Bh & Bl & Br).
  specialize (IHl HCl Bl). specialize (IHr HCr Br).
  pose proof (nodeHeight_nonneg _ HCl) as Hl0.
  pose proof (nodeHeight_nonneg _ HCr) as Hr0.
  remember (Z.to_nat (nodeHeight l)) as a eqn:Ea.
  remember (Z.to_nat (nodeHeight r)) as b eqn:Eb.
  assert (a = b \/ a = S b \/ b = S a) as [->|[->| ->]] by lia.
  - replace (Z.to_nat (1 + Z.max (nodeHeight l) (nodeHeight r)))
      with (S b) by lia.
    destruct b as [|b]; [simpl; lia|].
    rewrite minNodes_step. pose proof (minNodes_mono b). lia.
  - replace (Z.to_nat (1 + Z.max (nodeHeight l) (nodeHeight r)))
      with (S (S b)) by lia.
    rewrite minNodes_step. lia.
  - replace (Z.to_nat (1 + Z.max (nodeHeight l) (nodeHeight r)))
      with (S (S a)) by lia.
    rewrite minNodes_step. lia.
Qed.

(** Inserting distinct keys gives one node per insert. *)
Lemma distinct_inserts_size (ops : list (string * Course)) (t : AVLNode) :
  NoDup (map fst ops) -> insertAll Null ops = Some t ->
  size t = List.length ops.
Proof.
  intros ND E.
  destruct (insertAll_from_empty ops) as (t0 & E0 & (B & _) & V).
  rewrite E in E0. injection E0 as <-.
  rewrite <- visit_length, <- (length_map fst (visitInOrder t)).
  rewrite <- (length_map fst ops).
  apply Permutation_length, NoDup_Permutation; trivial.
  - apply sorted_NoDup. now apply BSTOrder_sorted.
  - intros x. fold (keysOf t). unfold keysOf.
    rewrite V, keys_insertEntries. simpl. tauto.
Qed.

End NodeCount.

(* ------------------------------------------------------------------ *)
(** *** Logarithms of the node counts *)

Section LogBound.

Local Open Scope R_scope.

Lemma ln_monotone (x y : R) : 0 < x -> x <= y -> ln x <= ln y.
Proof.
  intros Hx [Hlt| ->]; [|lra].
  left. now apply ln_increasing.
Qed.

Lemma ln2_pos : 0 < ln 2.
Proof. pose proof ln_lt_2. lra. Qed.

(** From a comparison of powers to a comparison of logarithms. *)
Lemma pow_ln_le (x y : R) (p q : nat) :
  0 < x -> 0 < y -> x ^ p <= y ^ q -> INR p * ln x <= INR q * ln y.
Proof.
  intros Hx Hy H. rewrite <- !ln_pow by trivial.
  apply ln_monotone; [now apply pow_lt | exact H].
Qed.

(** [2^p <= (num/den)^q], decided on integers. *)
Lemma ratio_pow_ge (num den : Z) (p q : nat) :
  (0 <? den)%Z = true ->
  (2 ^ Z.of_nat p * den ^ Z.of_nat q <=? num ^ Z.of_nat q)%Z = true ->
  2 ^ p <= (IZR num / IZR den) ^ q.
Proof.
  intros Hden H. apply Z.ltb_lt in Hden. apply Z.leb_le in H.
  apply IZR_lt in Hden. apply IZR_le in H.
  rewrite mult_IZR, <- !pow_IZR in H.
  assert (0 < IZR den ^ q) as Hq by now apply pow_lt.
  apply Rmult_le_reg_r with (IZR den ^ q); [exact Hq|].
  rewrite <- Rpow_mult_distr.
  replace (IZR num / IZR den * IZR den) with (IZR num); [exact H|].
  field. lra.
Qed.

Lemma ratio_ln_ge (num den : Z) (p q : Z) :
  (0 <? den)%Z = true -> (0 <? num)%Z = true ->
  (0 <=? p)%Z = true -> (0 <=? q)%Z = true ->
  (2 ^ p * den ^ q <=? num ^ q)%Z = true ->
  IZR p * ln 2 <= IZR q * ln (IZR num / IZR den).
Proof.
  intros Hden Hnum Hp Hq H.
  apply Z.leb_le in Hp, Hq.
  rewrite <- (Z2Nat.id p), <- (Z2Nat.id q) in H by trivial.
  apply ratio_pow_ge in H; [|exact Hden].
  apply Z.ltb_lt in Hden, Hnum. apply IZR_lt in Hden, Hnum.
  apply pow_ln_le in H; [| lra | now apply Rdiv_lt_0_compat].
  rewrite !INR_IZR_INZ, !Z2Nat.id in H by trivial. exact H.
Qed.

(** The growth rate 665/411, just below the golden ratio. *)
Lemma ln_rate : 84 * ln 2 <= 121 * ln (665 / 411).
Proof. apply (@ratio_ln_ge 665 411 84 121); reflexivity. Qed.

Lemma ln_factor : 23 * ln 2 <= 101 * ln (1171 / 1000).
Proof. apply (@ratio_ln_ge 1171 1000 23 101); reflexivity. Qed.

Lemma growth_step (X A B : R) :
  0 < X ->
  1171 / 1000 * X <= A + 1 ->
  1171 / 1000 * (665 / 411 * X) <= B + 1 ->
  1171 / 1000 * (665 / 411 * (665 / 411 * X)) <= (B + A + 1) + 1.
Proof. intros HX HA HB. lra. Qed.

Lemma minNodes_growth (n : nat) :
  1171 / 1000 * (665 / 411) ^ (n + 9) <= INR (minNodes (n + 9)) + 1 /\
  1171 / 1000 * (665 / 411) ^ S (n + 9) <= INR (minNodes (S (n + 9))) + 1.
Proof.
  induction n as [|n [IH1 IH2]].
  - change (minNodes (0 + 9)) with 88%nat.
    change (minNodes (S (0 + 9))) with 143%nat.
    rewrite !INR_IZR_INZ. simpl. lra.
  - split; [exact IH2|].
    change (S n + 9)%nat with (S (n + 9)).
    rewrite minNodes_step, S_INR, plus_INR.
    change ((665 / 411) ^ S (S (n + 9)))
      with (665 / 411 * (665 / 411 * (665 / 411) ^ (n + 9))).
    change ((665 / 411) ^ S (n + 9))
      with (665 / 411 * (665 / 411) ^ (n + 9)) in IH2.
    apply growth_step; trivial.
    apply pow_lt. lra.
Qed.

Lemma bound_from_logs (h L : R) :
  (h + 0.328) * ln 2 <= 1.4405 * L ->
  h <= 1.4405 * (L / ln 2) - 0.328.
Proof.
  intros H. pose proof ln2_pos as H2.
  apply Rmult_le_reg_r with (ln 2); [exact H2|].
  replace ((1.4405 * (L / ln 2) - 0.328) * ln 2)
    with (1.4405 * L - 0.328 * ln 2) by (field; lra).
  lra.
Qed.

Lemma small_height (h m p q : Z) (N : nat) :
  (0 <? m)%Z = true -> (0 <=? p)%Z = true -> (0 <? q)%Z = true ->
  (2 ^ p <=? m ^ q)%Z = true ->
  ((10000 * h + 3280) * q <=? 14405 * p)%Z = true ->
  IZR m <= INR N + 2 ->
  IZR h <= avlHeightBound N.
Proof.
  intros Hm Hp Hq Hpow Hfrac HN.
  assert (IZR p * ln 2 <= IZR q * ln (IZR m / IZR 1)) as HL.
  { apply ratio_ln_ge; trivial.
    - apply Z.leb_le. apply Z.ltb_lt in Hq. lia.
    - now rewrite Z.pow_1_l, Z.mul_1_r by (apply Z.leb_le in Hp;
        apply Z.ltb_lt in Hq; lia). }
  replace (IZR m / IZR 1) with (IZR m) in HL by (field; lra).
  apply Z.ltb_lt in Hm, Hq. apply Z.leb_le in Hfrac.
  apply IZR_lt in Hm, Hq. apply IZR_le in Hfrac.
  rewrite !mult_IZR, plus_IZR, mult_IZR in Hfrac.
  pose proof (@ln_monotone _ _ Hm HN) as HM.
  pose proof ln2_pos as H2.
  apply bound_from_logs.
  apply Rmult_le_reg_r with (IZR q); [exact Hq|].
  assert (0 <= IZR q * (ln (INR N + 2) - ln (IZR m))) as HM'
    by (apply Rmult_le_pos; lra).
  assert (0 <= ln 2 * (14405 * IZR p - (10000 * IZR h + 3280) * IZR q))
    as HF' by (apply Rmult_le_pos; lra).
  lra.
Qed.

Ltac small_case m p q :=
  rewrite INR_IZR_INZ;
  apply (@small_height _ m p q); try reflexivity;
  match goal with
  | H : (_ <= _)%nat |- _ => apply le_INR in H; simpl in H; lra
  end.

(** A tree of height [h] with at most [N] nodes more than the least
    number keeps within the bound. *)
Lemma height_log_bound (h N : nat) :
  (minNodes h <= N)%nat -> INR h <= avlHeightBound N.
Proof.
  intros H. destruct (le_lt_dec 9 h) as [Hbig|Hsmall].
  - replace h with (h - 9 + 9)%nat in H |- * by lia.
    destruct (minNodes_growth (h - 9)) as [G _].
    generalize dependent (h - 9 + 9)%nat. clear h Hbig. intros h H G.
    apply le_INR in H.
    assert (0 < (665 / 411) ^ h) as HX by (apply pow_lt; lra).
    assert (0 < 1171 / 1000 * (665 / 411) ^ h) as HKX
      by (apply Rmult_lt_0_compat; lra).
    assert (1171 / 1000 * (665 / 411) ^ h <= INR N + 2) as HN by lra.
    pose proof (@ln_monotone _ _ HKX HN) as HL.
    rewrite ln_mult, ln_pow in HL by lra.
    pose proof ln_rate as Hr. pose proof ln_factor as Hk.
    pose proof ln2_pos as H2. pose proof (pos_INR h) as Hh.
    assert (0 <= INR h * (121 * ln (665 / 411) - 84 * ln 2)) as P1
      by (apply Rmult_le_pos; lra).
    assert (0 <= INR h * ln 2) as P2 by (apply Rmult_le_pos; lra).
    unfold avlHeightBound, log2. apply bound_from_logs. lra.
  - destruct h as [|[|[|[|[|[|[|[|[|h]]]]]]]]]; try lia; simpl in H.
    + small_case 2%Z 1%Z 1%Z.
    + small_case 3%Z 1%Z 1%Z.
    + small_case 4%Z 2%Z 1%Z.
    + small_case 6%Z 5%Z 2%Z.
    + small_case 9%Z 19%Z 6%Z.
    + small_case 14%Z 15%Z 4%Z.
    + small_case 22%Z 22%Z 5%Z.
    + small_case 35%Z 41%Z 8%Z.
    + small_case 56%Z 29%Z 5%Z.
Qed.

(** The bound of the specification, at 609 keys, is below 13. *)
Lemma specHeightBound_609 : specHeightBound 609 < 13.
Proof.
  unfold specHeightBound, log2. rewrite INR_IZR_INZ.
  change (Z.of_nat 609) with 609%Z.
  replace (609 + 2) with 611 by lra.
  pose proof ln2_pos as H2.
  assert (611 ^ 90 < 2 ^ 833) as Hpow.
  { rewrite !pow_IZR. apply IZR_lt. apply Z.ltb_lt. reflexivity. }
  apply ln_increasing in Hpow; [|apply pow_lt; lra].
  rewrite !ln_pow in Hpow by lra.
  rewrite !INR_IZR_INZ in Hpow.
  change (Z.of_nat 90) with 90%Z in Hpow.
  change (Z.of_nat 833) with 833%Z in Hpow.
  apply Rmult_lt_reg_r with (ln 2); [exact H2|].
  replace ((1.44 * (ln 611 / ln 2) - 0.328) * ln 2)
    with (1.44 * ln 611 - 0.328 * ln 2) by (field; lra).
  lra.
Qed.

End LogBound.

(** C6, as the code behaves.  Inserting N distinct keys in any order
    yields a tree of height at most [1.4405 * log2 (N + 2) - 0.328]: the
    height is O(log N).  (The factor of the AVL bound is 1.44042...; with
    1.44 the bound is too small from 609 keys on.) *)
Theorem height_logarithmic (ops : list (string * Course)) (t : AVLNode) :
  NoDup (map fst ops) -> insertAll Null ops = Some t ->
  (IZR (nodeHeight t) <= avlHeightBound (List.length ops))%R.
Proof.
  intros ND E.
  destruct (insertAll_from_empty ops) as (t0 & E0 & (_ & HC & B) & _).
  rewrite E in E0. injection E0 as <-.
  pose proof (size_minNodes t HC B) as Hmin.
  rewrite (@distinct_inserts_size ops t ND E) in Hmin.
  apply height_log_bound in Hmin.
  rewrite INR_IZR_INZ, Z2Nat.id in Hmin by now apply nodeHeight_nonneg.
  exact Hmin.
Qed.

(** C6 as stated fails: the 609 distinct keys of [sparsestInserts] build
    a tree of height 13, and the bound of the specification at 609 keys
    is below 13. *)
Lemma spec_height_bound_fails_at_609_keys :
  NoDup (map fst sparsestInserts) /\
  List.length sparsestInserts = 609%nat /\
  exists t, insertAll Null sparsestInserts = Some t /\
    nodeHeight t = 13 /\
    ~ (IZR (nodeHeight t) <= specHeightBound (List.length sparsestInserts))%R.
Proof.
  assert (List.length sparsestInserts = 609%nat) as EL by (vm_compute; reflexivity).
  split; [|split; [exact EL|]].
  - assert (nodup string_dec (map fst sparsestInserts) =
            map fst sparsestInserts) as <- by (vm_compute; reflexivity).
    apply NoDup_nodup.
  - destruct (insertAll Null sparsestInserts) as [t|] eqn:E;
      [|vm_compute in E; discriminate E].
    exists t. split; [reflexivity|].
    assert (nodeHeight t = 13) as Eh.
    { assert (option_map nodeHeight (insertAll Null sparsestInserts) =
              Some 13) as E13 by (vm_compute; reflexivity).
      rewrite E in E13. now injection E13. }
    split; [exact Eh|].
    rewrite Eh, EL. pose proof specHeightBound_609. lra.
Qed.

Lemma height_logarithmic_witness :
  let ops := [("C", sampleCourse "C"); ("B", sampleCourse "B");
              ("A", sampleCourse "A")] in
  let t := treeABC (sampleCourse "A") (sampleCourse "B") (sampleCourse "C") in
  NoDup (map fst ops) /\ insertAll Null ops = Some t /\
  (IZR (nodeHeight t) <= avlHeightBound (List.length ops))%R.
Proof.
  assert (NoDup (map fst [("C", sampleCourse "C"); ("B", sampleCourse "B");
                          ("A", sampleCourse "A")])) as ND.
  { simpl. repeat constructor; simpl; intuition discriminate. }
  assert (insertAll Null [("C", sampleCourse "C"); ("B", sampleCourse "B");
                          ("A", sampleCourse "A")] =
          Some (treeABC (sampleCourse "A") (sampleCourse "B")
                  (sampleCourse "C"))) as E by reflexivity.
  split; [exact ND|]. split; [exact E|].
  exact (@height_logarithmic _ _ ND E).
Defined.

(* ================================================================== *)
(** ** The text utilities *)

Section Text.

Lemma headIsSpace_skipLeading (s : string) :
  headIsSpace (skipLeading s) = false.
Proof.
  induction s as [|c s IH]; simpl; [reflexivity|].
  destruct (isspace c) eqn:E; [exact IH | simpl; exact E].
Qed.

Lemma lastIsSpace_dropTrailing (s : string) :
  lastIsSpace (dropTrailing s) = false.
Proof.
  induction s as [|c s IH]; simpl; [reflexivity|].
  destruct (dropTrailing s) as [|d t] eqn:E.
  - destruct (isspace c) eqn:Ec; simpl; [reflexivity | exact Ec].
  - rewrite andb_false_r. exact IH.
Qed.

Lemma headIsSpace_dropTrailing (s : string) :
  headIsSpace s = false -> headIsSpace (dropTrailing s) = false.
Proof.
  destruct s as [|c s]; simpl; [trivial|].
  intros E. rewrite E. simpl. exact E.
Qed.

Lemma skipLeading_fixed (s : string) :
  headIsSpace s = false -> skipLeading s = s.
Proof. destruct s as [|c s]; simpl; [trivial|]. now intros ->. Qed.

Lemma dropTrailing_fixed (s : string) :
  lastIsSpace s = false -> dropTrailing s = s.
Proof.
  induction s as [|c s IH]; [reflexivity|].
  cbn [lastIsSpace dropTrailing]. destruct s as [|d t].
  - intros E. simpl. now rewrite E.
  - intros E. rewrite (IH E). now rewrite andb_false_r.
Qed.

Lemma trim_fixed (s : string) :
  headIsSpace s = false -> lastIsSpace s = false -> trim s = s.
Proof.
  intros H1 H2. unfold trim. rewrite (skipLeading_fixed _ H1).
  now apply dropTrailing_fixed.
Qed.

Lemma skipLeading_split (s : string) :
  exists pre, s = (pre ++ skipLeading s)%string /\ allChars isspace pre = true.
Proof.
  induction s as [|c s (pre & E & Hp)]; simpl.
  - now exists "".
  - destruct (isspace c) eqn:Ec.
    + exists (String c pre). simpl. now rewrite Ec, <- E.
    + now exists "".
Qed.

Lemma dropTrailing_split (s : string) :
  exists post, s = (dropTrailing s ++ post)%string /\
               allChars isspace post = true.
Proof.
  induction s as [|c s (post & E & Hp)]; simpl.
  - now exists "".
  - destruct (isspace c && isEmpty (dropTrailing s)) eqn:Ec.
    + apply andb_true_iff in Ec. destruct Ec as [Ec Ee].
      destruct (dropTrailing s); [|discriminate].
      exists (String c post). simpl in *. subst s. now rewrite Ec, Hp.
    + exists post. simpl. now rewrite <- E.
Qed.

End Text.

(** X1.  [trim] removes spaces at the two ends and nothing else: the input is
    the result between two runs of spaces, the result neither starts
    nor ends with a space, and trimming again changes nothing. *)
Theorem trim_removes_surrounding_spaces (s : string) :
  (exists pre post,
      s = (pre ++ trim s ++ post)%string /\
      allChars isspace pre = true /\ allChars isspace post = true) /\
  headIsSpace (trim s) = false /\
  lastIsSpace (trim s) = false /\
  trim (trim s) = trim s.
Proof.
  assert (headIsSpace (trim s) = false) as H1
    by (apply headIsSpace_dropTrailing, headIsSpace_skipLeading).
  assert (lastIsSpace (trim s) = false) as H2
    by apply lastIsSpace_dropTrailing.
  repeat split; trivial.
  - destruct (skipLeading_split s) as (pre & E1 & Hpre).
    destruct (dropTrailing_split (skipLeading s)) as (post & E2 & Hpost).
    exists pre, post. unfold trim. rewrite <- E2. auto.
  - now apply trim_fixed.
Qed.

Section Upper.

Lemma toUpper_length (s : string) :
  String.length (toUpper s) = String.length s.
Proof. induction s as [|c s IH]; simpl; congruence. Qed.

Lemma skipLeading_toUpper (s : string) :
  skipLeading (toUpper s) = toUpper (skipLeading s).
Proof.
  induction s as [|c s IH]; simpl; [reflexivity|].
  rewrite isspace_toupper. now destruct (isspace c).
Qed.

Lemma dropTrailing_toUpper (s : string) :
  dropTrailing (toUpper s) = toUpper (dropTrailing s).
Proof.
  induction s as [|c s IH]; simpl; [reflexivity|].
  rewrite IH, isspace_toupper, isEmpty_toUpper.
  now destruct (isspace c && isEmpty (dropTrailing s)).
Qed.

Lemma trim_toUpper (s : string) : trim (toUpper s) = toUpper (trim s).
Proof. unfold trim. now rewrite skipLeading_toUpper, dropTrailing_toUpper. Qed.

End Upper.

(** X2.  [toUpper] keeps the length, changes nothing when applied twice, and
    commutes with [trim]: upper-casing creates and removes no space. *)
Theorem toUpper_length_idempotent_trim (s : string) :
  String.length (toUpper s) = String.length s /\
  toUpper (toUpper s) = toUpper s /\
  toUpper (trim s) = trim (toUpper s).
Proof.
  split; [apply toUpper_length|].
  split; [apply toUpper_idem|]. symmetry. apply trim_toUpper.
Qed.

Section Quotes.

Lemma get_last (s : string) (c : ascii) :
  String.get (String.length s) (s ++ String c "") = Some c.
Proof. induction s as [|x s IH]; simpl; [reflexivity | exact IH]. Qed.

Lemma substring_prefix (s t : string) :
  String.substring 0 (String.length s) (s ++ t) = s.
Proof.
  induction s as [|x s IH]; simpl.
  - now destruct t.
  - now rewrite IH.
Qed.

Lemma append_length (s t : string) :
  String.length (s ++ t) = (String.length s + String.length t)%nat.
Proof. induction s as [|x s IH]; simpl; [reflexivity|]. now rewrite IH. Qed.

(** A string that has a character is a string followed by its last
    character. *)
Lemma split_last (s : string) :
  s <> "" ->
  exists init c, s = (init ++ String c "")%string /\ back s = Some c.
Proof.
  induction s as [|x s IH]; [congruence|]. intros _.
  destruct s as [|y s].
  - exists "", x. now split.
  - destruct IH as (init & c & E & Hb); [discriminate|].
    exists (String x init), c. rewrite E. split; [reflexivity|].
    unfold back. simpl String.length.
    rewrite append_length. simpl.
    replace (String.length init + 1 - 0)%nat with (S (String.length init))
      by lia.
    simpl. apply get_last.
Qed.

Lemma isChar_true (c : ascii) (o : option ascii) :
  isChar c o = true <-> o = Some c.
Proof.
  destruct o as [d|]; simpl; [|split; discriminate].
  rewrite Ascii.eqb_eq. split; congruence.
Qed.

End Quotes.

(** X3.  [stripQuotes] removes one pair of enclosing double quotes: it undoes
    the enclosing of any text in double quotes, and a string that it
    changes was its result between two double quotes. *)
Theorem stripQuotes_removes_one_pair (s : string) :
  stripQuotes (String dquote (s ++ String dquote "")) = s /\
  (stripQuotes s = s \/
   s = String dquote (stripQuotes s ++ String dquote "")).
Proof.
  split.
  - unfold stripQuotes, front, back. simpl String.length.
    rewrite append_length. simpl String.length.
    replace (S (String.length s + 1) - 1)%nat with (S (String.length s))
      by lia.
    replace (S (String.length s + 1) - 2)%nat with (String.length s) by lia.
    cbn [String.get]. rewrite get_last. cbn [isChar].
    rewrite !Ascii.eqb_refl.
    replace (2 <=? S (String.length s + 1))%nat with true
      by (symmetry; apply Nat.leb_le; lia).
    cbn [andb String.substring]. apply substring_prefix.
  - unfold stripQuotes.
    destruct (2 <=? String.length s)%nat eqn:E2; [|now left].
    destruct (isChar dquote (front s)) eqn:Ef; [|now left].
    destruct (isChar dquote (back s)) eqn:Eb; [|now left].
    right. cbn [andb]. apply Nat.leb_le in E2.
    apply isChar_true in Ef, Eb.
    destruct s as [|x s]; [discriminate|]. unfold front in Ef. simpl in Ef.
    injection Ef as ->.
    destruct (@split_last (String dquote s)) as (init & c & E & Hb);
      [discriminate|].
    rewrite Eb in Hb. injection Hb as <-.
    destruct init as [|y init]; simpl in E.
    + injection E as Es. subst. simpl in E2. lia.
    + injection E as Ey Es. subst. f_equal. f_equal.
      simpl String.length. rewrite append_length. simpl String.length.
      replace (S (String.length init + 1) - 2)%nat
        with (String.length init) by lia.
      cbn [String.substring]. symmetry. apply substring_prefix.
Qed.

Section CSV.

Lemma push_back_append (acc : string) (c : ascii) (s : string) :
  (push_back acc c ++ s = acc ++ String c s)%string.
Proof. unfold push_back. now rewrite append_assoc. Qed.

Lemma concat_cons (sep x : string) (xs : list string) :
  xs <> [] ->
  String.concat sep (x :: xs) = (x ++ sep ++ String.concat sep xs)%string.
Proof. destruct xs; [congruence | reflexivity]. Qed.

(** On a line without double quotes the fields, joined by commas, are
    the line. *)
Lemma splitCSVFrom_join (line field : string) :
  allChars (fun c => negb (isQuote c)) line = true ->
  splitCSVFrom line field false <> [] /\
  String.concat "," (splitCSVFrom line field false) = (field ++ line)%string.
Proof.
  revert field. induction line as [|c line IH]; intros field H;
    cbn [splitCSVFrom].
  - split; [discriminate | simpl; now rewrite append_empty_r].
  - simpl in H. apply andb_true_iff in H. destruct H as [Hc H].
    unfold isQuote in Hc. apply negb_true_iff in Hc. rewrite Hc.
    destruct (Ascii.eqb_spec c comma) as [->|Hne]; cbn [andb negb].
    + destruct (IH "" H) as [Hn E]. split; [discriminate|].
      rewrite concat_cons by exact Hn. now rewrite E.
    + destruct (IH (push_back field c) H) as [Hn E]. split; [exact Hn|].
      rewrite E. apply push_back_append.
Qed.

Lemma open_quote (r acc : string) :
  splitCSVFrom (String dquote r) acc false = splitCSVFrom r acc true.
Proof. now destruct r. Qed.

Lemma plain_step (f rest acc : string) :
  plainField f = true ->
  splitCSVFrom (f ++ rest) acc false = splitCSVFrom rest (acc ++ f) false.
Proof.
  revert acc. induction f as [|c f IH]; intros acc H; simpl.
  - now rewrite append_empty_r.
  - simpl in H. apply andb_true_iff in H. destruct H as [Hc H].
    apply andb_true_iff in Hc. destruct Hc as [Hq Hk].
    unfold isQuote in Hq. unfold isComma in Hk.
    apply negb_true_iff in Hq, Hk. rewrite Hq, Hk. simpl.
    rewrite (IH _ H). now rewrite push_back_append.
Qed.

Lemma quoted_step (s rest acc : string) :
  fieldEnd rest ->
  splitCSVFrom (escapeQuotes s ++ String dquote rest) acc true =
  splitCSVFrom rest (acc ++ s) false.
Proof.
  intros Hrest. revert acc. induction s as [|c s IH]; intros acc.
  - cbn [escapeQuotes append]. rewrite append_empty_r.
    destruct Hrest as [->|(more & ->)]; reflexivity.
  - cbn [escapeQuotes]. unfold isQuote.
    destruct (Ascii.eqb_spec c dquote) as [->|Hne].
    + cbn [append splitCSVFrom]. rewrite Ascii.eqb_refl. cbn [andb].
      rewrite IH. now rewrite push_back_append.
    + cbn [append splitCSVFrom].
      apply Ascii.eqb_neq in Hne. rewrite Hne. cbn [andb negb].
      rewrite andb_false_r, IH. now rewrite push_back_append.
Qed.

Lemma encoded_step (quoted : bool) (s rest acc : string) :
  (quoted = false -> plainField s = true) -> fieldEnd rest ->
  splitCSVFrom ((if quoted then quoteField s else s) ++ rest) acc false =
  splitCSVFrom rest (acc ++ s) false.
Proof.
  intros Hp Hrest. destruct quoted.
  - unfold quoteField. cbn [append]. rewrite open_quote, append_assoc.
    cbn [append]. now apply quoted_step.
  - now apply plain_step, Hp.
Qed.

Lemma split_encoded (quoted : string -> bool) (f : string)
    (fields : list string) (acc : string) :
  (forall s, In s (f :: fields) -> quoted s = false -> plainField s = true) ->
  splitCSVFrom
    (String.concat ","
       (map (fun s => if quoted s then quoteField s else s) (f :: fields)))
    acc false =
  (acc ++ f)%string :: fields.
Proof.
  revert f acc. induction fields as [|g fields IH]; intros f acc H.
  - cbn [map String.concat].
    rewrite <- (append_empty_r (if quoted f then quoteField f else f)).
    rewrite encoded_step; [reflexivity | apply H; now left | now left].
  - change (map _ (f :: g :: fields))
      with ((if quoted f then quoteField f else f) ::
            map (fun s => if quoted s then quoteField s else s) (g :: fields)).
    rewrite concat_cons by discriminate.
    rewrite encoded_step;
      [| apply H; now left | right; eexists; reflexivity].
    cbn [append splitCSVFrom].
    replace (Ascii.eqb comma dquote) with false by reflexivity.
    rewrite Ascii.eqb_refl. cbn [andb negb]. f_equal.
    rewrite IH; [reflexivity|]. intros s Hs. apply H. now right.
Qed.

End CSV.

(** X4.  On a line without double quotes [splitCSVLine] cuts at every comma
    and loses nothing: the fields, joined by commas, are the line. *)
Theorem splitCSVLine_join (line : string) :
  allChars (fun c => negb (isQuote c)) line = true ->
  String.concat "," (splitCSVLine line) = line.
Proof.
  intros H. unfold splitCSVLine.
  now destruct (@splitCSVFrom_join line "" H) as [_ ->].
Qed.

(** X5.  [splitCSVLine] reads back what a CSV writer writes: fields joined
    by commas, each either written as it is (when it has no comma and
    no double quote) or between double quotes with its own double quotes
    doubled, are returned unchanged, commas and quotes included. *)
Theorem splitCSVLine_decodes
    (quoted : string -> bool) (fields : list string) :
  fields <> [] ->
  (forall s, In s fields -> quoted s = false -> plainField s = true) ->
  splitCSVLine
    (String.concat ","
       (map (fun s => if quoted s then quoteField s else s) fields)) =
  fields.
Proof.
  intros Hne H. destruct fields as [|f fields]; [congruence|].
  unfold splitCSVLine. now rewrite split_encoded.
Qed.

Section Tokens.

Lemma noDelimiter_noSpaces (s : string) :
  allChars (fun c => negb (isDelimiter c)) s = true -> noSpaces s = true.
Proof.
  induction s as [|c s IH]; simpl; [trivial|].
  intros H. apply andb_true_iff in H. destruct H as [Hc H].
  rewrite (IH H). unfold isDelimiter in Hc.
  destruct (isspace c); [discriminate | reflexivity].
Qed.

Lemma allChars_push_back (p : ascii -> bool) (s : string) (c : ascii) :
  allChars p s = true -> p c = true -> allChars p (push_back s c) = true.
Proof.
  intros Hs Hc. unfold push_back.
  induction s as [|x s IH]; simpl in *.
  - now rewrite Hc.
  - apply andb_true_iff in Hs. destruct Hs as [Hx Hs]. now rewrite Hx, IH.
Qed.

Lemma flush_token (token : string) :
  allChars (fun c => negb (isDelimiter c)) token = true ->
  flush token = if isEmpty token then [] else [token].
Proof.
  intros H. unfold flush.
  now rewrite (trim_noSpaces _ (noDelimiter_noSpaces _ H)).
Qed.

Lemma splitPrereqFrom_spec (s token : string) :
  allChars (fun c => negb (isDelimiter c)) token = true ->
  Forall (fun t => isToken t = true) (splitPrereqFrom s token) /\
  String.concat "" (splitPrereqFrom s token) =
    (token ++ filterChars (fun c => negb (isDelimiter c)) s)%string.
Proof.
  revert token. induction s as [|c s IH]; intros token H;
    cbn [splitPrereqFrom filterChars].
  - rewrite (flush_token _ H), append_empty_r. unfold isToken.
    destruct (isEmpty token) eqn:E.
    + split; [constructor|]. now destruct token.
    + split; [|reflexivity]. constructor; [|constructor].
      now rewrite E, H.
  - destruct (isDelimiter c) eqn:Ed; cbn [negb].
    + destruct (IH "" eq_refl) as [F E]. rewrite (flush_token _ H).
      split.
      * apply Forall_app. split; [|exact F]. unfold isToken.
        destruct (isEmpty token) eqn:Ee; constructor; [|constructor].
        now rewrite Ee, H.
      * rewrite concat_app, E.
        destruct (isEmpty token) eqn:Ee; [now destruct token|].
        reflexivity.
    + assert (allChars (fun c => negb (isDelimiter c)) (push_back token c)
              = true) as H' by (apply allChars_push_back; [|rewrite Ed]; auto).
      destruct (IH _ H') as [F E]. split; [exact F|].
      rewrite E. apply push_back_append.
Qed.

Lemma token_step (t rest acc : string) :
  allChars (fun c => negb (isDelimiter c)) t = true ->
  splitPrereqFrom (t ++ rest) acc = splitPrereqFrom rest (acc ++ t).
Proof.
  revert acc. induction t as [|c t IH]; intros acc H; cbn [append].
  - now rewrite append_empty_r.
  - simpl in H. apply andb_true_iff in H. destruct H as [Hc H].
    apply negb_true_iff in Hc. cbn [splitPrereqFrom]. rewrite Hc.
    rewrite (IH _ H). now rewrite push_back_append.
Qed.

Lemma separator_step (sep rest : string) :
  allChars isDelimiter sep = true ->
  splitPrereqFrom (sep ++ rest) "" = splitPrereqFrom rest "".
Proof.
  induction sep as [|d sep IH]; intros H; cbn [append]; [reflexivity|].
  simpl in H. apply andb_true_iff in H. destruct H as [Hd H].
  cbn [splitPrereqFrom]. rewrite Hd. now apply IH.
Qed.

Lemma split_joined_tokens (sep t : string) (ts : list string) :
  sep <> "" -> allChars isDelimiter sep = true ->
  Forall (fun t => isToken t = true) (t :: ts) ->
  splitPrereqFrom (String.concat sep (t :: ts)) "" = t :: ts.
Proof.
  intros Hne Hsep. revert t. induction ts as [|u ts IH]; intros t F;
    inversion F as [|? ? Ht F']; subst;
    unfold isToken in Ht; apply andb_true_iff in Ht; destruct Ht as [He Ht];
    apply negb_true_iff in He.
  - cbn [String.concat]. rewrite <- (append_empty_r t) at 1.
    rewrite token_step by exact Ht. cbn [append splitPrereqFrom].
    rewrite flush_token by exact Ht. now rewrite He.
  - rewrite concat_cons by discriminate.
    rewrite token_step by exact Ht. cbn [append].
    destruct sep as [|d sep]; [congruence|]. cbn [append splitPrereqFrom].
    simpl in Hsep. apply andb_true_iff in Hsep. destruct Hsep as [Hd Hsep'].
    rewrite Hd. rewrite flush_token by exact Ht. rewrite He.
    rewrite separator_step by exact Hsep'.
    cbn [app]. f_equal. apply IH. exact F'.
Qed.

End Tokens.

(** X6.  [splitPrereqTokens] keeps every character that is not a delimiter
    (space, [|], [;], [,]) and cuts at the delimiters: its tokens are
    not empty and hold no delimiter, and put end to end they are the
    input without its delimiters. *)
Theorem splitPrereqTokens_tokens (s : string) :
  Forall (fun t => isToken t = true) (splitPrereqTokens s) /\
  String.concat "" (splitPrereqTokens s) =
    filterChars (fun c => negb (isDelimiter c)) s.
Proof. apply (@splitPrereqFrom_spec s "" eq_refl). Qed.

(** X7.  Tokens joined by any non-empty run of delimiters (as in
    "CSCI200 | MATH201") are read back one by one, in order. *)
Theorem splitPrereqTokens_joined (sep : string) (ts : list string) :
  sep <> "" -> allChars isDelimiter sep = true ->
  Forall (fun t => isToken t = true) ts ->
  splitPrereqTokens (String.concat sep ts) = ts.
Proof.
  intros Hne Hsep F. destruct ts as [|t ts]; [reflexivity|].
  now apply split_joined_tokens.
Qed.

Section Lines.

Lemma lastIsSpace_app (a b : string) :
  b <> "" -> lastIsSpace (a ++ b) = lastIsSpace b.
Proof.
  intros Hb. induction a as [|c a IH]; [reflexivity|].
  cbn [append lastIsSpace]. rewrite IH.
  destruct (a ++ b)%string eqn:E; [|reflexivity].
  destruct a; simpl in E; congruence.
Qed.

Lemma headIsSpace_app (a b : string) :
  a <> "" -> headIsSpace (a ++ b) = headIsSpace a.
Proof. destruct a; [congruence | reflexivity]. Qed.

Lemma lastIsSpace_back (s : string) (c : ascii) :
  back s = Some c -> s <> "" -> lastIsSpace s = isspace c.
Proof.
  intros Hb Hne. destruct (split_last Hne) as (init & d & E & Hd).
  rewrite Hb in Hd. injection Hd as <-. rewrite E.
  now rewrite lastIsSpace_app by discriminate.
Qed.

Lemma dropCR_fixed (line : string) :
  lastIsSpace line = false -> dropCR line = line.
Proof.
  intros H. unfold dropCR. destruct line as [|x line]; [reflexivity|].
  cbn [isEmpty negb andb].
  destruct (isChar carriageReturn (back (String x line))) eqn:E;
    [|reflexivity].
  apply isChar_true in E.
  rewrite (lastIsSpace_back E) in H by discriminate. discriminate H.
Qed.

Lemma dropCR_appended (line : string) :
  dropCR (line ++ String carriageReturn "") = line.
Proof.
  unfold dropCR, back. rewrite append_length. simpl String.length.
  replace (String.length line + 1 - 1)%nat with (String.length line) by lia.
  rewrite get_last. cbn [isChar]. rewrite Ascii.eqb_refl.
  replace (isEmpty (line ++ String carriageReturn "")) with false
    by now destruct line.
  cbn [negb andb]. apply substring_prefix.
Qed.

Lemma dropCR_without_CR (line : string) :
  back line <> Some carriageReturn -> dropCR line = line.
Proof.
  intros H. unfold dropCR.
  destruct (isChar carriageReturn (back line)) eqn:E;
    [|now rewrite andb_false_r].
  apply isChar_true in E. congruence.
Qed.

Lemma joined_ends (f : string) (fs : list string) :
  Forall (fun s => s <> "" /\ lastIsSpace s = false) (f :: fs) ->
  String.concat "," (f :: fs) <> "" /\
  lastIsSpace (String.concat "," (f :: fs)) = false.
Proof.
  revert f. induction fs as [|g fs IH]; intros f F;
    inversion F as [|? ? [Hne Hl] F']; subst.
  - now split.
  - destruct (IH g F') as [Hn' Hl'].
    rewrite concat_cons by discriminate. split.
    + destruct f; [congruence | discriminate].
    + rewrite lastIsSpace_app by discriminate.
      now rewrite (@lastIsSpace_app "," _ Hn').
Qed.

Lemma noSpaces_ends (s : string) :
  noSpaces s = true -> headIsSpace s = false /\ lastIsSpace s = false.
Proof.
  induction s as [|c s IH]; [now split|].
  cbn [noSpaces]. intros H. apply andb_true_iff in H. destruct H as [Hc H].
  apply negb_true_iff in Hc. destruct (IH H) as [_ Hl].
  split; [exact Hc|]. cbn [lastIsSpace]. now destruct s.
Qed.

Lemma stripQuotes_plain (s : string) : plainField s = true -> stripQuotes s = s.
Proof.
  intros H. unfold stripQuotes. destruct s as [|c s]; [reflexivity|].
  simpl in H. apply andb_true_iff in H. destruct H as [Hc _].
  apply andb_true_iff in Hc. destruct Hc as [Hq _].
  unfold isQuote in Hq. apply negb_true_iff in Hq.
  unfold front. cbn [String.get isChar]. rewrite Hq.
  now rewrite andb_false_r.
Qed.

Lemma prereqsOfField_token (p : string) :
  isToken p = true -> prereqsOfField p = [toUpper p].
Proof.
  unfold isToken. intros H. apply andb_true_iff in H. destruct H as [He H].
  apply negb_true_iff in He. unfold prereqsOfField, splitPrereqTokens.
  rewrite He. rewrite <- (append_empty_r p) at 1.
  rewrite token_step by exact H. cbn [append splitPrereqFrom].
  rewrite flush_token by exact H. rewrite He. cbn [filter]. now rewrite He.
Qed.

Lemma token_trimmed (p : string) : isToken p = true -> trim p = p.
Proof.
  unfold isToken. intros H. apply andb_true_iff in H. destruct H as [_ H].
  now apply trim_noSpaces, noDelimiter_noSpaces.
Qed.

End Lines.

(** X9.  A record written without quoting is parsed field by field: number,
    title and prerequisite tokens joined by commas give the course with
    the number upper-cased, the title as written and the upper-cased
    prerequisites sorted, each once. *)
Theorem parseCourseLine_plain_record (n t : string) (ps : list string) :
  cleanField n -> front n <> Some "#"%char -> cleanField t ->
  Forall (fun p => isToken p = true /\ plainField p = true) ps ->
  parseCourseLine (String.concat "," (n :: t :: ps)) =
  Parsed (mkCourse (toUpper n) t (unique (sort (map toUpper ps)))).
Proof.
  intros (Hn & Pn & Hhn & Hln) Hhash (Ht & Pt & Hht & Hlt) F.
  assert (Forall (fun s => s <> "" /\ lastIsSpace s = false) (n :: t :: ps))
    as Fends.
  { repeat constructor; trivial.
    eapply Forall_impl; [|exact F]. intros p [Hp _].
    unfold isToken in Hp. apply andb_true_iff in Hp. destruct Hp as [He Hd].
    apply negb_true_iff in He. split; [now destruct p|].
    now apply noSpaces_ends, noDelimiter_noSpaces. }
  destruct (joined_ends Fends) as [Hline Hlast].
  assert (forall s, In s (n :: t :: ps) -> plainField s = true) as Fplain.
  { intros s [<-|[<-|Hs]]; trivial.
    rewrite Forall_forall in F. now apply F. }
  assert (forall s, In s (n :: t :: ps) -> stripQuotes (trim s) = s) as Ffix.
  { intros s Hs. assert (trim s = s) as ->.
    { destruct Hs as [<-|[<-|Hs]]; try now apply trim_fixed.
      rewrite Forall_forall in F. now apply token_trimmed, F. }
    now apply stripQuotes_plain, Fplain. }
  remember (String.concat "," (n :: t :: ps)) as line eqn:Eline.
  assert (headIsSpace line = false) as Hhead.
  { rewrite Eline, concat_cons by discriminate.
    now rewrite headIsSpace_app. }
  unfold parseCourseLine.
  rewrite (dropCR_fixed _ Hlast), (trim_fixed _ Hhead Hlast).
  assert (isEmpty line = false) as ->
    by (destruct line; [congruence | reflexivity]).
  assert (isChar "#" (front line) = false) as ->.
  { destruct (isChar "#" (front line)) eqn:E; [|reflexivity].
    apply isChar_true in E. destruct Hhash.
    rewrite Eline, concat_cons in E by discriminate.
    destruct n; [congruence | exact E]. }
  cbn [orb].
  assert (splitCSVLine line = n :: t :: ps) as ->.
  { unfold splitCSVLine. rewrite Eline.
    rewrite <- (map_id (n :: t :: ps)) at 1.
    apply (@split_encoded (fun _ => false) n (t :: ps) "").
    intros s Hs _. now apply Fplain. }
  assert (map (fun f => stripQuotes (trim f)) (n :: t :: ps) = n :: t :: ps)
    as ->.
  { rewrite <- (map_id (n :: t :: ps)) at 2. apply map_ext_in. exact Ffix. }
  replace (isEmpty n) with false by (destruct n; [congruence | reflexivity]).
  replace (isEmpty t) with false by (destruct t; [congruence | reflexivity]).
  cbn [orb].
  assert (flat_map prereqsOfField ps = map toUpper ps) as ->; [|reflexivity].
  clear -F. induction F as [|p ps [Hp _] F IH]; [reflexivity|].
  cbn [flat_map map]. rewrite IH, prereqsOfField_token by exact Hp.
  reflexivity.
Qed.

(** X10.  A line read from a file with CR LF line ends is parsed as the same
    line without the CR. *)
Theorem parseCourseLine_ignores_CR (line : string) :
  back line <> Some carriageReturn ->
  parseCourseLine (line ++ String carriageReturn "") = parseCourseLine line.
Proof.
  intros H. unfold parseCourseLine.
  now rewrite dropCR_appended, (dropCR_without_CR _ H).
Qed.

(* ================================================================== *)
(** ** More on the tree *)

Section TreeFacts.

Lemma insertEntry_length (key : string) (value : Course)
    (l : list (string * Course)) :
  StronglySorted Key.lt (map fst l) ->
  List.length (insertEntry key value l) =
  if in_dec string_dec key (map fst l) then List.length l
  else S (List.length l).
Proof.
  induction l as [|[k v] l IH]; intros S; [reflexivity|].
  simpl in S. inversion S as [|? ? S' F]; subst.
  rewrite Forall_forall in F. cbn [insertEntry].
  destruct (KeyFacts.cmp key k) as [Hlt|Hgt|Heq].
  - destruct (in_dec string_dec key (map fst ((k, v) :: l))) as [Hin|_];
      [|reflexivity].
    destruct Hin as [E|Hin].
    + simpl in E. subst. now destruct (KeyFacts.lt_irrefl Hlt).
    + destruct (KeyFacts.lt_asym Hlt (F _ Hin)).
  - cbn [List.length]. rewrite (IH S').
    destruct (in_dec string_dec key (map fst l)) as [Hin|Hnot];
      destruct (in_dec string_dec key (map fst ((k, v) :: l))) as [Hin'|Hnot'];
      trivial.
    + destruct Hnot'. now right.
    + destruct Hin' as [E|Hin']; [|contradiction]. simpl in E. subst.
      now destruct (KeyFacts.lt_irrefl Hgt).
  - subst. cbn [List.length].
    destruct (in_dec string_dec k (map fst ((k, v) :: l))) as [_|Hnot];
      [reflexivity|].
    destruct Hnot. now left.
Qed.

Lemma overwrite_same (t : AVLNode) (key : string) (value : Course) :
  (forall v, In (key, v) (visitInOrder t) -> v = value) ->
  overwrite t key value = t.
Proof.
  induction t as [|k v h l IHl r IHr]; intros H; [reflexivity|].
  cbn [overwrite]. simpl in H.
  rewrite IHl, IHr by (intros w Hw; apply H, in_app_iff; simpl; auto).
  destruct (String.eqb_spec k key) as [->|_]; [|reflexivity].
  now rewrite (H v) by (apply in_app_iff; simpl; auto).
Qed.

(** Two listings in strictly ascending key order that hold the same
    payload under every key are the same listing. *)
Lemma sorted_listing_ext (l1 l2 : list (string * Course)) :
  StronglySorted Key.lt (map fst l1) ->
  StronglySorted Key.lt (map fst l2) ->
  (forall k, assoc k l1 = assoc k l2) ->
  l1 = l2.
Proof.
  revert l2. induction l1 as [|[k1 v1] l1 IH]; intros [|[k2 v2] l2] S1 S2 H.
  - reflexivity.
  - specialize (H k2). simpl in H. now rewrite String.eqb_refl in H.
  - specialize (H k1). simpl in H. now rewrite String.eqb_refl in H.
  - simpl in S1, S2.
    inversion S1 as [|? ? S1' F1]; inversion S2 as [|? ? S2' F2]; subst.
    rewrite Forall_forall in F1, F2.
    assert (forall k l, (forall x, In x (map fst l) -> Key.lt k x) ->
                        assoc k l = None) as Habove.
    { intros k l Hl. apply assoc_absent. intros Hin.
      exact (KeyFacts.lt_irrefl (Hl _ Hin)). }
    assert (k1 = k2) as ->.
    { pose proof (H k1) as H1. pose proof (H k2) as H2. simpl in H1, H2.
      rewrite String.eqb_refl in H1, H2.
      destruct (String.eqb_spec k2 k1) as [E|N1]; [congruence|].
      destruct (String.eqb_spec k1 k2) as [E|N2]; [congruence|].
      symmetry in H1.
      assert (In k1 (map fst l2)) as I1.
      { destruct (in_dec string_dec k1 (map fst l2)) as [I|N]; [exact I|].
        apply assoc_absent in N. congruence. }
      assert (In k2 (map fst l1)) as I2.
      { destruct (in_dec string_dec k2 (map fst l1)) as [I|N]; [exact I|].
        apply assoc_absent in N. congruence. }
      destruct (KeyFacts.lt_asym (F1 _ I2) (F2 _ I1)). }
    pose proof (H k2) as H2. simpl in H2. rewrite String.eqb_refl in H2.
    injection H2 as ->. f_equal. apply IH; trivial.
    intros k. specialize (H k). simpl in H.
    destruct (String.eqb_spec k2 k) as [->|_]; [|exact H].
    now rewrite !Habove by auto.
Qed.

Lemma assoc_insertEntries_distinct (ops : list (string * Course))
    (k : string) (v : Course) :
  NoDup (map fst ops) -> In (k, v) ops ->
  assoc k (insertEntries ops []) = Some v.
Proof.
  intros ND Hin. apply in_split in Hin. destruct Hin as (before & after & ->).
  rewrite insertEntries_app. unfold insertEntries at 1. simpl.
  fold (insertEntries after (insertEntry k v (insertEntries before []))).
  rewrite assoc_insertEntries_other, assoc_insertEntry.
  - now rewrite String.eqb_refl.
  - rewrite map_app in ND. apply NoDup_remove_2 in ND. simpl in ND.
    intros Hin. apply ND, in_app_iff. now right.
Qed.

Lemma assoc_insertEntries_perm (ops ops' : list (string * Course))
    (k : string) :
  NoDup (map fst ops) -> Permutation ops ops' ->
  assoc k (insertEntries ops []) = assoc k (insertEntries ops' []).
Proof.
  intros ND P.
  assert (NoDup (map fst ops')) as ND'
    by (eapply Permutation_NoDup; [apply Permutation_map, P | exact ND]).
  destruct (in_dec string_dec k (map fst ops)) as [Hin|Hnot].
  - apply in_map_iff in Hin. destruct Hin as ([k' v] & E & Hin).
    simpl in E. subst k'.
    rewrite (@assoc_insertEntries_distinct ops k v ND Hin).
    symmetry. apply assoc_insertEntries_distinct; [exact ND'|].
    eapply Permutation_in; eauto.
  - rewrite !assoc_insertEntries_other; trivial.
    intros Hin. apply Hnot.
    eapply Permutation_in; [apply Permutation_sym, Permutation_map, P|].
    exact Hin.
Qed.

End TreeFacts.

(** X11.  One insert, then a search: in a tree satisfying the invariants the
    inserted key is found with the inserted payload, and the search for
    any other key gives what it gave before. *)
Theorem avlFind_after_avlInsert
    (t : AVLNode) (key : string) (value : Course) (k : string) :
  Invariants t ->
  exists t', avlInsert t key value = Some t' /\
    bind (avlFind t' k) valueOf =
    if String.eqb key k then Some value else bind (avlFind t k) valueOf.
Proof.
  intros Inv.
  destruct (avlInsert_preserves key value Inv) as (t' & E & Inv' & V).
  exists t'. split; [exact E|].
  rewrite !avlFind_assoc, V by (apply Inv || apply Inv').
  apply assoc_insertEntry.
Qed.

(** X12.  An insert adds one node when the key is new and none when it is
    present; the keys afterwards are the inserted key and the keys
    before. *)
Theorem avlInsert_size_and_keys
    (t t' : AVLNode) (key : string) (value : Course) :
  Invariants t -> avlInsert t key value = Some t' ->
  (In key (keysOf t) -> size t' = size t) /\
  (~ In key (keysOf t) -> size t' = S (size t)) /\
  (forall x, In x (keysOf t') <-> x = key \/ In x (keysOf t)).
Proof.
  intros Inv E.
  destruct (avlInsert_preserves key value Inv) as (t0 & E0 & Inv' & V).
  rewrite E in E0. injection E0 as <-.
  pose proof (@insertEntry_length key value (visitInOrder t)
                (BSTOrder_sorted _ (proj1 Inv))) as L.
  rewrite <- V, !visit_length in L. fold (keysOf t) in L.
  assert (forall x, In x (keysOf t') <-> x = key \/ In x (keysOf t)) as K
    by (intros x; unfold keysOf; rewrite V; apply keys_insertEntry).
  destruct (in_dec string_dec key (keysOf t)) as [Hin|Hnot];
    (split; [tauto | split; [tauto | exact K]]).
Qed.

(** X13.  An insert never makes the tree lower, and makes it at most one
    level higher. *)
Theorem avlInsert_height_step
    (t t' : AVLNode) (key : string) (value : Course) :
  Invariants t -> avlInsert t key value = Some t' ->
  nodeHeight t <= nodeHeight t' <= nodeHeight t + 1.
Proof.
  intros (_ & HC & B) E.
  destruct (avlInsert_heights key value t HC B) as (t0 & E0 & _ & _ & G).
  rewrite E in E0. injection E0 as <-. lia.
Qed.

(** X14.  Inserting the same key and payload a second time changes nothing. *)
Theorem avlInsert_idempotent
    (t t' : AVLNode) (key : string) (value : Course) :
  Invariants t -> avlInsert t key value = Some t' ->
  avlInsert t' key value = Some t'.
Proof.
  intros Inv E.
  destruct (avlInsert_preserves key value Inv) as (t0 & E0 & Inv' & V).
  rewrite E in E0. injection E0 as <-.
  assert (In key (keysOf t')) as Hin
    by (unfold keysOf; rewrite V; apply keys_insertEntry; now left).
  rewrite <- avlInsertLog_erase.
  rewrite (@avlInsertLog_overwrite key value t' Inv' Hin). simpl. f_equal.
  apply overwrite_same. intros v Hv.
  apply In_assoc in Hv;
    [|apply sorted_NoDup; apply (BSTOrder_sorted _ (proj1 Inv'))].
  rewrite V, assoc_insertEntry, String.eqb_refl in Hv. congruence.
Qed.

(** X16.  The listing does not depend on the order of the inserts: the same
    records with distinct keys, inserted in any two orders, give trees
    with the same in-order sequence and the same printed list, also
    as [printAllCourses] frames it. *)
Theorem listing_independent_of_insert_order
    (ops ops' : list (string * Course)) (t t' : AVLNode) :
  NoDup (map fst ops) -> Permutation ops ops' ->
  insertAll Null ops = Some t -> insertAll Null ops' = Some t' ->
  visitInOrder t = visitInOrder t' /\ avlInOrder t = avlInOrder t' /\
  printAllCourses t = printAllCourses t'.
Proof.
  intros ND P E E'.
  destruct (insertAll_from_empty ops) as (t0 & E0 & (B & _) & V).
  rewrite E in E0. injection E0 as <-.
  destruct (insertAll_from_empty ops') as (t0 & E0 & (B' & _) & V').
  rewrite E' in E0. injection E0 as <-.
  assert (visitInOrder t = visitInOrder t') as EV.
  { apply sorted_listing_ext; try now apply BSTOrder_sorted.
    intros k. rewrite V, V'. now apply assoc_insertEntries_perm. }
  assert (avlInOrder t = avlInOrder t') as EO
    by now rewrite !avlInOrder_lines, EV.
  split; [exact EV|]. split; [exact EO|].
  destruct t as [|k v h l r], t' as [|k' v' h' l' r'].
  - reflexivity.
  - simpl in EV. destruct (visitInOrder l'); discriminate EV.
  - simpl in EV. destruct (visitInOrder l); discriminate EV.
  - unfold printAllCourses. now rewrite EO.
Qed.

Section Rotations.

Lemma rotateRight_size (y x : AVLNode) :
  rotateRight y = Some x -> size x = size y.
Proof.
  destruct y as [|ky vy hy [|kx vx hx a T2] c]; simpl; try discriminate.
  intros [= <-]. simpl. lia.
Qed.

Lemma rotateLeft_size (x y : AVLNode) :
  rotateLeft x = Some y -> size y = size x.
Proof.
  destruct x as [|kx vx hx a [|ky vy hy T2 c]]; simpl; try discriminate.
  intros [= <-]. simpl. lia.
Qed.

Lemma rotateRight_heights (y x : AVLNode) :
  rotateRight y = Some x -> HeightCorrect y -> HeightCorrect x.
Proof.
  destruct y as [|ky vy hy [|kx vx hx a T2] c]; simpl; try discriminate.
  intros [= <-]. simpl. tauto.
Qed.

Lemma rotateLeft_heights (x y : AVLNode) :
  rotateLeft x = Some y -> HeightCorrect x -> HeightCorrect y.
Proof.
  destruct x as [|kx vx hx a [|ky vy hy T2 c]]; simpl; try discriminate.
  intros [= <-]. simpl. tauto.
Qed.

End Rotations.

(** X17.  A right rotation is defined exactly on a node with a left child, a
    left rotation on a node with a right child.  Either keeps the
    in-order sequence, the number of nodes, the BST order and the
    correctness of the height fields. *)
Theorem rotations_preserve (t : AVLNode) :
  (rotateRight t = None <->
   t = Null \/ exists k v h r, t = Node k v h Null r) /\
  (rotateLeft t = None <->
   t = Null \/ exists k v h l, t = Node k v h l Null) /\
  forall t', rotateRight t = Some t' \/ rotateLeft t = Some t' ->
    visitInOrder t' = visitInOrder t /\
    size t' = size t /\
    (BSTOrder t -> BSTOrder t') /\
    (HeightCorrect t -> HeightCorrect t').
Proof.
  split; [|split].
  - destruct t as [|k v h [|kl vl hl a b] r]; simpl.
    + split; auto.
    + split; [right; eauto | reflexivity].
    + split; [discriminate|].
      intros [H|(k0 & v0 & h0 & r0 & H)]; discriminate.
  - destruct t as [|k v h l [|kr vr hr a b]]; simpl.
    + split; auto.
    + split; [right; eauto | reflexivity].
    + split; [discriminate|].
      intros [H|(k0 & v0 & h0 & l0 & H)]; discriminate.
  - intros t' [E|E].
    + repeat split.
      * exact (rotateRight_visit _ E).
      * exact (rotateRight_size _ E).
      * apply (rotateRight_order _ E).
      * exact (rotateRight_heights _ E).
    + repeat split.
      * exact (rotateLeft_visit _ E).
      * exact (rotateLeft_size _ E).
      * apply (rotateLeft_order _ E).
      * exact (rotateLeft_heights _ E).
Qed.

(** X18.  On a tree with correct height fields the two rotations undo each
    other. *)
Theorem rotations_inverse (t t' : AVLNode) :
  HeightCorrect t ->
  (rotateRight t = Some t' -> rotateLeft t' = Some t) /\
  (rotateLeft t = Some t' -> rotateRight t' = Some t).
Proof.
  intros HC. split.
  - destruct t as [|ky vy hy [|kx vx hx a T2] c]; simpl; try discriminate.
    intros [= <-]. simpl in *.
    destruct HC as (-> & (-> & _) & _). reflexivity.
  - destruct t as [|kx vx hx a [|ky vy hy T2 c]]; simpl; try discriminate.
    intros [= <-]. simpl in *.
    destruct HC as (-> & _ & (-> & _)). reflexivity.
Qed.

(** X19.  A tree with correct height fields has fewer than [2 ^ height]
    nodes: N keys need height at least log2 (N + 1). *)
Theorem size_below_power_of_height (t : AVLNode) :
  HeightCorrect t -> Z.of_nat (size t) + 1 <= 2 ^ nodeHeight t.
Proof.
  induction t as [|k v h l IHl r IHr]; simpl; [lia|].
  intros (-> & HCl & HCr).
  specialize (IHl HCl). specialize (IHr HCr).
  pose proof (nodeHeight_nonneg _ HCl) as Hl.
  pose proof (nodeHeight_nonneg _ HCr) as Hr.
  set (m := Z.max (nodeHeight l) (nodeHeight r)).
  assert (2 ^ nodeHeight l <= 2 ^ m) by (apply Z.pow_le_mono_r; lia).
  assert (2 ^ nodeHeight r <= 2 ^ m) by (apply Z.pow_le_mono_r; lia).
  replace (1 + m) with (Z.succ m) by lia.
  rewrite Z.pow_succ_r by lia. lia.
Qed.

(** X20.  [avlDestroy] deletes every node once: the keys of the deleted nodes
    are the keys of the tree, as many as there are nodes, and the root
    is deleted last. *)
Theorem avlDestroy_deletes_each_node (t : AVLNode) :
  Permutation (avlDestroy t) (keysOf t) /\
  List.length (avlDestroy t) = size t /\
  (forall k v h l r, t = Node k v h l r ->
     exists before, avlDestroy t = before ++ [k] /\
       Permutation before (keysOf l ++ keysOf r)).
Proof.
  assert (forall t, Permutation (avlDestroy t) (keysOf t)) as HP.
  { clear t. unfold keysOf.
    induction t as [|k v h l IHl r IHr]; simpl; [constructor|].
    rewrite map_app. simpl.
    apply Permutation_app; [exact IHl|].
    apply Permutation_trans with (k :: avlDestroy r).
    - apply Permutation_sym, Permutation_cons_append.
    - now constructor. }
  split; [apply HP|]. split.
  - rewrite (Permutation_length (HP t)). unfold keysOf.
    now rewrite length_map, visit_length.
  - intros k v h l r ->. exists (avlDestroy l ++ avlDestroy r). split.
    + simpl. now rewrite app_assoc.
    + apply Permutation_app; apply HP.
Qed.

Section OneRebalancing.

Ltac known_heights :=
  repeat match goal with
         | H : HeightCorrect ?t |- _ =>
             lazymatch goal with
             | _ : 0 <= nodeHeight t |- _ => fail
             | _ => pose proof (nodeHeight_nonneg t H)
             end
         end.

Ltac decide_tests :=
  rewrite ?Z.gtb_ltb;
  repeat match goal with
         | |- context [?a <? ?b] => destruct (Z.ltb_spec a b); try lia
         end.

Lemma rebalanceLog_left (key k : string) (v : Course) (h hl : Z)
    (l' r : AVLNode) :
  HeightCorrect l' -> HeightCorrect r ->
  0 <= hl -> Z.abs (hl - nodeHeight r) <= 1 ->
  nodeHeight l' = hl \/
    (nodeHeight l' = hl + 1 /\ (0 < hl -> Grew key l')) ->
  exists t' log, rebalanceLog key (Node k v h l' r) = Some (t', log) /\
    Rebalanced (1 + Z.max hl (nodeHeight r)) t' log.
Proof.
  intros HCl HCr Hhl Hbal Hgrow.
  unfold rebalanceLog, isLeftLeft, isRightRight, isLeftRight, isRightLeft.
  cbn [updateHeight balanceFactor leftOf rightOf bind].
  known_heights.
  destruct (Z.ltb_spec 1 (nodeHeight l' - nodeHeight r)) as [Hbf|Hbf];
    rewrite ?Z.gtb_ltb.
  - destruct Hgrow as [E|[E G]]; [lia|].
    assert (0 < hl) as Hpos by lia. specialize (G Hpos).
    destruct l' as [|kl vl hl' a b]; [destruct G|].
    simpl in HCl, E, G. destruct HCl as (Ehl & HCa & HCb).
    known_heights.
    decide_tests. cbn [andThen keyOf bind]. destruct G as [[Hlt Eh]|[Hgt Eh]].
    + rewrite (KeyFacts.ltb_true Hlt).
      cbn [logged keyOf rotateRight bind].
      do 2 eexists. split; [reflexivity|]. right. split; [discriminate|].
      simpl in *. lia.
    + rewrite (KeyFacts.ltb_false Hgt), (KeyFacts.gtb_true Hgt).
      destruct b as [|kb vb hb b1 b2]; [simpl in Eh; lia|].
      simpl in HCb, Eh. destruct HCb as (Ehb & HCb1 & HCb2). known_heights.
      cbn [logged keyOf rotateLeft rotateRight updateHeight setLeft bind
           fst snd app].
      do 2 eexists. split; [reflexivity|]. right. split; [discriminate|].
      simpl in *. lia.
  - decide_tests. cbn [andThen bind].
    do 2 eexists. split; [reflexivity|]. now left.
Qed.

Lemma rebalanceLog_right (key k : string) (v : Course) (h hr : Z)
    (l r' : AVLNode) :
  HeightCorrect l -> HeightCorrect r' ->
  0 <= hr -> Z.abs (nodeHeight l - hr) <= 1 ->
  nodeHeight r' = hr \/
    (nodeHeight r' = hr + 1 /\ (0 < hr -> Grew key r')) ->
  exists t' log, rebalanceLog key (Node k v h l r') = Some (t', log) /\
    Rebalanced (1 + Z.max (nodeHeight l) hr) t' log.
Proof.
  intros HCl HCr Hhr Hbal Hgrow.
  unfold rebalanceLog, isLeftLeft, isRightRight, isLeftRight, isRightLeft.
  cbn [updateHeight balanceFactor leftOf rightOf bind].
  known_heights.
  destruct (Z.ltb_spec (nodeHeight l - nodeHeight r') (-1)) as [Hbf|Hbf];
    rewrite ?Z.gtb_ltb.
  - destruct Hgrow as [E|[E G]]; [lia|].
    assert (0 < hr) as Hpos by lia. specialize (G Hpos).
    destruct r' as [|kr vr hr' a b]; [destruct G|].
    simpl in HCr, E, G. destruct HCr as (Ehr & HCa & HCb).
    known_heights.
    decide_tests. cbn [andThen keyOf bind]. destruct G as [[Hlt Eh]|[Hgt Eh]].
    + rewrite (KeyFacts.gtb_false Hlt), (KeyFacts.ltb_true Hlt).
      destruct a as [|ka va ha a1 a2]; [simpl in Eh; lia|].
      simpl in HCa, Eh. destruct HCa as (Eha & HCa1 & HCa2). known_heights.
      cbn [logged keyOf rotateLeft rotateRight updateHeight setRight bind
           fst snd app].
      do 2 eexists. split; [reflexivity|]. right. split; [discriminate|].
      simpl in *. lia.
    + rewrite (KeyFacts.gtb_true Hgt).
      cbn [logged keyOf rotateLeft bind].
      do 2 eexists. split; [reflexivity|]. right. split; [discriminate|].
      simpl in *. lia.
  - decide_tests. cbn [andThen bind].
    do 2 eexists. split; [reflexivity|]. now left.
Qed.

Lemma avlInsertLog_tree (key : string) (value : Course)
    (t t' : AVLNode) (log : list Rotation) :
  avlInsertLog t key value = Some (t', log) -> avlInsert t key value = Some t'.
Proof. intros E. rewrite <- avlInsertLog_erase, E. reflexivity. Qed.

Lemma avlInsertLog_once (key : string) (value : Course) (t : AVLNode) :
  HeightCorrect t -> Balanced t ->
  exists t' log, avlInsertLog t key value = Some (t', log) /\
    Rebalanced (nodeHeight t) t' log.
Proof.
  induction t as [|k v h l IHl r IHr]; intros HC B.
  - do 2 eexists. split; [reflexivity|]. now left.
  - simpl in HC, B. destruct HC as (Eh & HCl & HCr).
    destruct B as (Bh & Bl & Br). cbn [avlInsertLog nodeHeight].
    pose proof (nodeHeight_nonneg _ HCl) as Hl0.
    pose proof (nodeHeight_nonneg _ HCr) as Hr0.
    destruct (KeyFacts.cmp key k) as [Hlt|Hgt|Heq].
    + destruct (IHl HCl Bl) as (l' & logl & El & Rl).
      destruct (avlInsert_heights key value l HCl Bl)
        as (l0 & E0 & HCl' & _ & G).
      rewrite (avlInsertLog_tree _ _ _ El) in E0. injection E0 as <-.
      rewrite El. cbn [bind fst snd].
      destruct (Z.eq_dec (nodeHeight l') (nodeHeight l)) as [Esame|Ediff].
      * rewrite rebalanceLog_fallthrough by (rewrite Esame; trivial).
        cbn [bind fst snd]. rewrite app_nil_r.
        do 2 eexists. split; [reflexivity|].
        destruct Rl as [->|[Hc _]]; [now left|]. right. now split.
      * destruct Rl as [->|[_ Hh]]; [|contradiction].
        destruct (@rebalanceLog_left key k v h (nodeHeight l) l' r)
          as (t' & log & -> & R); trivial.
        cbn [bind fst snd app]. do 2 eexists. split; [reflexivity|].
        now rewrite Eh.
    + destruct (IHr HCr Br) as (r' & logr & Er & Rr).
      destruct (avlInsert_heights key value r HCr Br)
        as (r0 & E0 & HCr' & _ & G).
      rewrite (avlInsertLog_tree _ _ _ Er) in E0. injection E0 as <-.
      rewrite Er. cbn [bind fst snd].
      destruct (Z.eq_dec (nodeHeight r') (nodeHeight r)) as [Esame|Ediff].
      * rewrite rebalanceLog_fallthrough by (rewrite Esame; trivial).
        cbn [bind fst snd]. rewrite app_nil_r.
        do 2 eexists. split; [reflexivity|].
        destruct Rr as [->|[Hc _]]; [now left|]. right. now split.
      * destruct Rr as [->|[_ Hh]]; [|contradiction].
        destruct (@rebalanceLog_right key k v h (nodeHeight r) l r')
          as (t' & log & -> & R); trivial.
        cbn [bind fst snd app]. do 2 eexists. split; [reflexivity|].
        now rewrite Eh.
    + do 2 eexists. split; [reflexivity|]. now left.
Qed.

End OneRebalancing.

(** X15.  An insert rebalances at most once: on a tree satisfying the
    invariants it performs no rotation, or the one or two rotations of
    a single case, and after a rotation the tree is as high as before
    the insert. *)
Theorem avlInsert_rebalances_once
    (t t' : AVLNode) (key : string) (value : Course) (log : list Rotation) :
  Invariants t -> avlInsertLog t key value = Some (t', log) ->
  log = [] \/
  (exists c, rotationCase log = Some c) /\ nodeHeight t' = nodeHeight t.
Proof.
  intros (_ & HC & B) E.
  destruct (avlInsertLog_once key value t HC B) as (t0 & log0 & E0 & R).
  rewrite E in E0. injection E0 as <- <-.
  destruct R as [->|[Hc Hh]]; [now left|]. right. split; [|exact Hh].
  destruct (rotationCase log) as [c|]; [eauto | congruence].
Qed.

(* ================================================================== *)
(** ** The loader and the report *)

Section Loader.

Lemma loadLoop_spec (lines : list string) (st : LoadState) :
  Invariants (loadRoot st) ->
  exists st', loadLoop lines st = Some st' /\
    insertAll (loadRoot st) (courseInserts (acceptedCourses lines)) =
      Some (loadRoot st') /\
    Invariants (loadRoot st') /\
    lineNumber st' = (lineNumber st + List.length lines)%nat /\
    added st' = (added st + List.length (acceptedCourses lines))%nat /\
    skipped st' =
      (skipped st + List.length (filter isMalformed lines))%nat /\
    List.length (warnings st') =
      (List.length (warnings st) + List.length (filter isMalformed lines))%nat.
Proof.
  revert st. induction lines as [|line lines IH]; intros st Inv.
  - exists st. simpl. split; [reflexivity|]. split; [reflexivity|].
    split; [exact Inv|]. repeat split; lia.
  - cbn [loadLoop]. unfold acceptedCourses, isMalformed in *.
    cbn [flat_map filter].
    destruct (parseCourseLine line) as [c|err].
    + destruct (avlInsert_preserves (number c) c Inv) as (r' & E & Inv' & _).
      rewrite E. cbn [bind].
      destruct (IH (mkLoadState r' (S (lineNumber st)) (S (added st))
                      (skipped st) (warnings st)) Inv')
        as (st' & -> & EI & I & L & A & K & W).
      cbn [loadRoot lineNumber added skipped warnings] in *.
      exists st'. cbn [app courseInserts map insertAll List.length].
      rewrite E. cbn [bind]. split; [reflexivity|]. split; [exact EI|].
      split; [exact I|]. repeat split; lia.
    + destruct (String.eqb err "skip"); cbn [negb].
      * destruct (IH (mkLoadState (loadRoot st) (S (lineNumber st))
                        (added st) (skipped st) (warnings st)) Inv)
          as (st' & -> & EI & I & L & A & K & W).
        cbn [loadRoot lineNumber added skipped warnings] in *.
        exists st'. cbn [app List.length]. split; [reflexivity|].
        split; [exact EI|]. split; [exact I|]. repeat split; lia.
      * match goal with
        | |- context [loadLoop lines ?s] =>
            destruct (IH s Inv) as (st' & -> & EI & I & L & A & K & W)
        end.
        cbn [loadRoot lineNumber added skipped warnings] in *.
        rewrite length_app in W. cbn [List.length] in *.
        exists st'. cbn [app]. split; [reflexivity|].
        split; [exact EI|]. split; [exact I|]. repeat split; lia.
Qed.

Lemma insertAll_keys (ops : list (string * Course)) (t : AVLNode) :
  insertAll Null ops = Some t ->
  forall k, In k (keysOf t) <-> In k (map fst ops).
Proof.
  intros E k.
  destruct (insertAll_from_empty ops) as (t0 & E0 & _ & V).
  rewrite E in E0. injection E0 as <-.
  unfold keysOf. rewrite V, keys_insertEntries. simpl. tauto.
Qed.

Lemma courseInserts_keys (cs : list Course) :
  map fst (courseInserts cs) = map number cs.
Proof. unfold courseInserts. rewrite map_map. reflexivity. Qed.

Lemma keysOf_Null (t : AVLNode) : keysOf t = [] -> t = Null.
Proof.
  destruct t as [|k v h l r]; [trivial|]. unfold keysOf. simpl.
  rewrite map_app. simpl. intros H. apply app_eq_nil in H.
  destruct H as [_ H]. discriminate H.
Qed.

End Loader.

(** X21.  [loadCoursesFromFile] on a file that opens.  Whatever [root] was,
    the new tree is the one built from the empty tree by inserting the
    courses of the accepted lines, in file order, each under its
    number; it satisfies the invariants; the flag returned tells
    whether a line was accepted, and the tree is empty exactly when
    none was. *)
Theorem loadCoursesFromFile_builds_tree
    (lines : list string) (filename : string) (old : AVLNode) :
  exists root out,
    loadCoursesFromFile (Some lines) filename old =
      Some (negb (List.length (acceptedCourses lines) =? 0)%nat, root, out) /\
    insertAll Null (courseInserts (acceptedCourses lines)) = Some root /\
    Invariants root /\
    (root = Null <-> acceptedCourses lines = []) /\
    (forall k, In k (keysOf root) <->
               In k (map number (acceptedCourses lines))).
Proof.
  destruct (@loadLoop_spec lines (mkLoadState Null 0 0 0 []) Invariants_Null)
    as (st & E & EI & Inv & _ & A & _ & _).
  cbn [loadRoot added] in *.
  assert (forall k, In k (keysOf (loadRoot st)) <->
                    In k (map number (acceptedCourses lines))) as K.
  { intros k. rewrite <- courseInserts_keys. now apply insertAll_keys. }
  assert (loadRoot st = Null <-> acceptedCourses lines = []) as N.
  { split.
    - intros H. rewrite H in K. destruct (acceptedCourses lines) as [|c cs];
        [reflexivity|]. destruct (proj2 (K (number c))). now left.
    - intros H. apply keysOf_Null.
      destruct (keysOf (loadRoot st)) as [|k ks] eqn:Ek; [reflexivity|].
      rewrite H in K. destruct (proj1 (K k)). now left. }
  unfold loadCoursesFromFile. rewrite E. cbn [bind]. rewrite A.
  cbn [Nat.add].
  destruct (List.length (acceptedCourses lines) =? 0)%nat;
    do 2 eexists; (split; [reflexivity|]); auto.
Qed.

(** X22.  What the loader counts.  Every line is numbered; "added" counts the
    accepted lines and "skipped" the malformed ones, one warning each;
    blank and comment lines are counted in neither.  The tree never
    holds more courses than "added", and holds as many exactly when no
    course number comes twice. *)
Theorem loadLoop_counts (lines : list string) :
  exists st,
    loadLoop lines (mkLoadState Null 0 0 0 []) = Some st /\
    lineNumber st = List.length lines /\
    added st = List.length (acceptedCourses lines) /\
    skipped st = List.length (filter isMalformed lines) /\
    List.length (warnings st) = skipped st /\
    (size (loadRoot st) <= added st)%nat /\
    (NoDup (map number (acceptedCourses lines)) <->
     size (loadRoot st) = added st).
Proof.
  destruct (@loadLoop_spec lines (mkLoadState Null 0 0 0 []) Invariants_Null)
    as (st & E & EI & Inv & L & A & K & W).
  cbn [loadRoot lineNumber added skipped warnings List.length Nat.add] in *.
  exists st. repeat split; trivial; try lia.
  - rewrite A, <- visit_length, <- (length_map fst), <- (length_map number).
    apply NoDup_incl_length.
    + apply sorted_NoDup, BSTOrder_sorted, Inv.
    + intros k Hk. rewrite <- courseInserts_keys.
      apply (insertAll_keys _ EI). exact Hk.
  - intros ND. rewrite A, <- (length_map number), <- courseInserts_keys.
    rewrite length_map. apply distinct_inserts_size; [|exact EI].
    now rewrite courseInserts_keys.
  - intros Es. rewrite A in Es.
    apply NoDup_incl_NoDup with (l := keysOf (loadRoot st)).
    + apply sorted_NoDup, BSTOrder_sorted, Inv.
    + unfold keysOf. rewrite !length_map, visit_length. lia.
    + intros k Hk. rewrite <- courseInserts_keys.
      now apply (insertAll_keys _ EI).
Qed.

Section Report.

Lemma insertAll_find_last (ops before after : list (string * Course))
    (t : AVLNode) (key : string) (v : Course) :
  insertAll Null ops = Some t ->
  ops = before ++ (key, v) :: after -> ~ In key (map fst after) ->
  exists h l r, avlFind t key = Some (Node key v h l r).
Proof.
  intros E -> Hnot.
  destruct (insertAll_from_empty (before ++ (key, v) :: after))
    as (t0 & E0 & (B & _) & V).
  rewrite E in E0. injection E0 as <-.
  assert (bind (avlFind t key) valueOf = Some v) as H.
  { rewrite avlFind_assoc, V by exact B.
    rewrite insertEntries_app. unfold insertEntries at 1. simpl.
    fold (insertEntries after (insertEntry key v (insertEntries before []))).
    rewrite assoc_insertEntries_other by trivial.
    rewrite assoc_insertEntry. now rewrite String.eqb_refl. }
  destruct (avlFind t key) as [n|] eqn:En; [|discriminate].
  destruct (avlFind_node _ _ En) as (w & h & l & r & ->).
  simpl in H. injection H as ->. eauto.
Qed.

Lemma normalized_query (raw : string) :
  toUpper (trim (toUpper (trim raw))) = toUpper (trim raw).
Proof.
  rewrite trim_toUpper.
  assert (trim (trim raw) = trim raw) as ->.
  { apply trim_fixed;
      [apply headIsSpace_dropTrailing, headIsSpace_skipLeading
      |apply lastIsSpace_dropTrailing]. }
  apply toUpper_idem.
Qed.

End Report.

(** X23.  [printCourseInfo] searches under the trimmed, upper-cased input:
    two inputs that differ in letter case or in surrounding spaces give
    the same report. *)
Theorem printCourseInfo_normalizes_query (root : AVLNode) (raw : string) :
  printCourseInfo root raw = printCourseInfo root (toUpper (trim raw)).
Proof.
  unfold printCourseInfo. now rewrite normalized_query.
Qed.

(** X24.  A loaded course is found by its number.  After loading a file, for
    the last accepted record of a course number, any input that trims
    and upper-cases to that number makes [printCourseInfo] find the node
    holding that record and print its number and title. *)
Theorem loaded_course_is_reported
    (lines : list string) (filename : string) (old root : AVLNode)
    (ok : bool) (out : list Output)
    (before after : list Course) (c : Course) (raw : string) :
  loadCoursesFromFile (Some lines) filename old = Some (ok, root, out) ->
  acceptedCourses lines = before ++ c :: after ->
  ~ In (number c) (map number after) ->
  toUpper (trim raw) = number c ->
  ok = true /\
  (exists h l r, avlFind root (number c) = Some (Node (number c) c h l r)) /\
  exists rest,
    printCourseInfo root raw =
    ("Course: " ++ number c ++ " - " ++ title c ++ newline ++ rest)%string.
Proof.
  intros E Ecs Hlast Hraw.
  destruct (@loadLoop_spec lines (mkLoadState Null 0 0 0 []) Invariants_Null)
    as (st & EL & EI & _ & _ & A & _ & _).
  cbn [loadRoot added Nat.add] in *.
  unfold loadCoursesFromFile in E. rewrite EL in E. cbn [bind] in E.
  rewrite A, Ecs, length_app in E. cbn [List.length] in E.
  replace (List.length before + S (List.length after) =? 0)%nat with false
    in E by (symmetry; apply Nat.eqb_neq; lia).
  injection E as <- <- <-.
  assert (exists h l r,
             avlFind (loadRoot st) (number c) = Some (Node (number c) c h l r))
    as (h & l & r & F).
  { apply (@insertAll_find_last _ (courseInserts before) (courseInserts after)
             _ _ _ EI).
    - rewrite Ecs. unfold courseInserts. now rewrite map_app.
    - now rewrite courseInserts_keys. }
  split; [reflexivity|]. split; [eauto|].
  unfold printCourseInfo. rewrite Hraw, F.
  destruct (loadRoot st) as [|k0 v0 h0 l0 r0]; [discriminate F|].
  eexists. reflexivity.
Qed.

(* ================================================================== *)
(** ** The menu loop *)

Section Menu.

Variable files : Files.

(** The loop goes on with the lines [rest] from the session [s']. *)
Lemma continue_from (P : Session -> Prop) (out : list Output)
    (rest : list string) (s' : Session) :
  (exists o s'', mainLoop files rest s' = Some (o, s'') /\ P s'') ->
  exists o s'',
    (r <- mainLoop files rest s' ;;
     Some (Cout printMenu :: out ++ fst r, snd r)) = Some (o, s'') /\ P s''.
Proof.
  intros (o & s'' & -> & H). cbn [bind fst snd]. eauto.
Qed.

Lemma loadCoursesFromFile_session (file : option (list string))
    (filename : string) (old : AVLNode) :
  exists ok root' out,
    loadCoursesFromFile file filename old = Some (ok, root', out) /\
    (ok = true -> Invariants root' /\ root' <> Null).
Proof.
  destruct file as [lines|].
  - destruct (@loadLoop_spec lines (mkLoadState Null 0 0 0 [])
                Invariants_Null)
      as (st & E & EI & Inv & _ & A & _ & _).
    cbn [loadRoot added Nat.add] in *.
    unfold loadCoursesFromFile. rewrite E. cbn [bind].
    destruct (added st =? 0)%nat eqn:E0; do 3 eexists;
      (split; [reflexivity|]); [discriminate|].
    intros _. split; [exact Inv|]. intros HN.
    rewrite HN in EI. apply Nat.eqb_neq in E0. rewrite A in E0.
    destruct (acceptedCourses lines) as [|c cs]; [now simpl in E0|].
    pose proof (insertAll_keys _ EI (number c)) as K.
    destruct (proj2 K). now left.
  - do 3 eexists. split; [reflexivity | discriminate].
Qed.

Lemma Consistent_reset : Consistent (mkSession Null false).
Proof.
  split; [exact Invariants_Null|]. simpl. split; [discriminate | congruence].
Qed.

Lemma mainLoop_consistent (n : nat) :
  forall (stdin : list string) (s : Session),
    (List.length stdin <= n)%nat -> Consistent s ->
    exists out s', mainLoop files stdin s = Some (out, s') /\ Consistent s'.
Proof.
  induction n as [|n IH]; intros stdin s Hlen C.
  - destruct stdin; [|simpl in Hlen; lia]. cbn [mainLoop]. eauto.
  - destruct stdin as [|choiceLine rest]; [cbn [mainLoop]; eauto|].
    simpl in Hlen.
    assert (forall s0, Consistent s0 ->
              exists o s'', mainLoop files rest s0 = Some (o, s'') /\
                            Consistent s'') as Hrest
      by (intros s0 C0; apply IH; [lia | exact C0]).
    cbn [mainLoop].
    destruct (isEmpty (trim choiceLine));
      [apply continue_from, Hrest, C|].
    destruct (stoi (trim choiceLine)) as [choice|];
      [|apply continue_from, Hrest, C].
    destruct (choice =? 9); [eauto|].
    destruct (choice =? 1).
    { destruct rest as [|filenameLine rest'];
        [apply continue_from, Hrest, C|].
      simpl in Hlen.
      assert (forall s0, Consistent s0 ->
                exists o s'', mainLoop files rest' s0 = Some (o, s'') /\
                              Consistent s'') as Hrest'
        by (intros s0 C0; apply IH; [lia | exact C0]).
      destruct (isEmpty (trim filenameLine));
        [apply continue_from, Hrest', C|].
      destruct (loadCoursesFromFile_session (files (trim filenameLine))
                  (trim filenameLine) (root s))
        as (ok & root' & out & -> & Hok).
      destruct ok.
      - apply continue_from, Hrest'.
        destruct (Hok eq_refl) as [Inv Hne].
        split; [exact Inv|]. simpl. split; auto.
      - apply continue_from, Hrest', Consistent_reset. }
    destruct (choice =? 2).
    { destruct (dataLoaded s); apply continue_from, Hrest, C. }
    destruct (choice =? 3); [|apply continue_from, Hrest, C].
    destruct (dataLoaded s); [|apply continue_from, Hrest, C].
    destruct rest as [|courseNumber rest'];
      [apply continue_from, Hrest, C|].
    simpl in Hlen.
    destruct (isEmpty (trim courseNumber));
      apply continue_from, IH; trivial; lia.
Qed.

End Menu.

(** X25.  [main] never faults and always comes to its end, whatever the files
    and the input.  At the exit, as between any two commands, the tree
    satisfies the invariants and [dataLoaded] is set exactly when the
    tree is not empty. *)
Theorem main_keeps_session_consistent (files : Files) (stdin : list string) :
  exists out s,
    main files stdin = Some (out, s) /\
    Invariants (root s) /\
    (dataLoaded s = true <-> root s <> Null).
Proof.
  apply (@mainLoop_consistent files (List.length stdin) stdin
           (mkSession Null false) (le_n _) Consistent_reset).
Qed.

(** X26.  A load that fails discards what was loaded.  When option 1 is
    chosen and the file named cannot be opened, or no line of it is
    accepted, the loop goes on with an empty tree and [dataLoaded]
    unset, whatever the session held before. *)
Theorem failed_load_discards_courses
    (files : Files) (choiceLine filenameLine : string) (rest : list string)
    (s : Session) :
  stoi (trim choiceLine) = Some 1 ->
  trim filenameLine <> "" ->
  (files (trim filenameLine) = None \/
   exists lines, files (trim filenameLine) = Some lines /\
                 acceptedCourses lines = []) ->
  exists out,
    mainLoop files (choiceLine :: filenameLine :: rest) s =
    (r <- mainLoop files rest (mkSession Null false) ;;
     Some (Cout printMenu :: out ++ fst r, snd r)).
Proof.
  intros Hchoice Hname Hfile. cbn [mainLoop]. rewrite Hchoice.
  replace (isEmpty (trim choiceLine)) with false
    by (destruct (trim choiceLine); [discriminate Hchoice | reflexivity]).
  replace (isEmpty (trim filenameLine)) with false
    by (destruct (trim filenameLine); [congruence | reflexivity]).
  cbn [Z.eqb Pos.eqb].
  destruct Hfile as [->|(lines & -> & Hnone)].
  - cbn [loadCoursesFromFile]. eexists. reflexivity.
  - destruct (@loadLoop_spec lines (mkLoadState Null 0 0 0 [])
                Invariants_Null)
      as (st & E & _ & _ & _ & A & _ & _).
    cbn [added Nat.add] in A. rewrite Hnone in A. simpl in A.
    unfold loadCoursesFromFile. rewrite E. cbn [bind]. rewrite A.
    cbn [Nat.eqb]. eexists. reflexivity.
Qed.

(* ------------------------------------------------------------------ *)
(** *** Instances of the properties above *)

Lemma splitCSVLine_join_witness :
  allChars (fun c => negb (isQuote c)) "CSCI100,Intro," = true /\
  String.concat "," (splitCSVLine "CSCI100,Intro,") = "CSCI100,Intro,".
Proof.
  split; [reflexivity|].
  apply (@splitCSVLine_join "CSCI100,Intro,"). reflexivity.
Defined.

Lemma splitCSVLine_decodes_witness :
  let quoted := fun s => negb (plainField s) in
  let fields := ["MATH201"; "Calculus, part one"; String dquote "so-called"] in
  splitCSVLine
    (String.concat ","
       (map (fun s => if quoted s then quoteField s else s) fields)) =
  fields.
Proof.
  apply (@splitCSVLine_decodes (fun s => negb (plainField s))
           ["MATH201"; "Calculus, part one"; String dquote "so-called"]).
  - discriminate.
  - intros s _ H. apply negb_false_iff in H. exact H.
Defined.

Lemma splitPrereqTokens_joined_witness :
  splitPrereqTokens (String.concat " | " ["CSCI200"; "MATH201"]) =
  ["CSCI200"; "MATH201"].
Proof.
  apply (@splitPrereqTokens_joined " | " ["CSCI200"; "MATH201"]).
  - discriminate.
  - reflexivity.
  - repeat constructor.
Defined.

Lemma parseCourseLine_plain_record_witness :
  parseCourseLine
    (String.concat "," ["csci300"; "Data Structures"; "math201"; "csci200"]) =
  Parsed (mkCourse (toUpper "csci300") "Data Structures"
            (unique (sort (map toUpper ["math201"; "csci200"])))).
Proof.
  apply (@parseCourseLine_plain_record "csci300" "Data Structures"
           ["math201"; "csci200"]).
  - repeat split. discriminate.
  - discriminate.
  - repeat split. discriminate.
  - repeat constructor.
Defined.

Lemma parseCourseLine_ignores_CR_witness :
  back "CSCI100,Intro" <> Some carriageReturn /\
  parseCourseLine ("CSCI100,Intro" ++ String carriageReturn "") =
  parseCourseLine "CSCI100,Intro".
Proof.
  assert (back "CSCI100,Intro" <> Some carriageReturn) as H by discriminate.
  split; [exact H|]. exact (@parseCourseLine_ignores_CR "CSCI100,Intro" H).
Defined.

Lemma parseCourseLine_contract_witness :
  let c := mkCourse "CSCI200" "Data Structures"
             ["CSCI100"; "MATH201"; "X9"] in
  parseCourseLine
    "csci200 , Data Structures, csci100 | math201;csci100,,X9" = Parsed c /\
  number c <> "" /\ toUpper (number c) = number c /\
  Forall Normalized (prerequisites c) /\
  StronglySorted Key.lt (prerequisites c).
Proof.
  assert (parseCourseLine
            "csci200 , Data Structures, csci100 | math201;csci100,,X9" =
          Parsed (mkCourse "CSCI200" "Data Structures"
                    ["CSCI100"; "MATH201"; "X9"])) as E by reflexivity.
  split; [exact E|]. exact (parseCourseLine_contract _ E).
Defined.

Lemma Invariants_treeABC (cA cB cC : Course) : Invariants (treeABC cA cB cC).
Proof. repeat split; simpl; lia. Defined.

Lemma avlFind_after_avlInsert_witness :
  let t := treeABC (sampleCourse "A") (sampleCourse "B") (sampleCourse "C") in
  exists t', avlInsert t "D" (sampleCourse "D") = Some t' /\
    bind (avlFind t' "B") valueOf =
    if String.eqb "D" "B" then Some (sampleCourse "D")
    else bind (avlFind t "B") valueOf.
Proof.
  exact (@avlFind_after_avlInsert _ "D" (sampleCourse "D") "B"
           (Invariants_treeABC (sampleCourse "A") (sampleCourse "B")
              (sampleCourse "C"))).
Defined.

Lemma avlInsert_size_and_keys_witness :
  let t := treeABC (sampleCourse "A") (sampleCourse "B") (sampleCourse "C") in
  let t' := Node "B" (sampleCourse "B") 3 (newNode "A" (sampleCourse "A"))
              (Node "C" (sampleCourse "C") 2 Null
                 (newNode "D" (sampleCourse "D"))) in
  avlInsert t "D" (sampleCourse "D") = Some t' /\
  (In "D" (keysOf t) -> size t' = size t) /\
  (~ In "D" (keysOf t) -> size t' = S (size t)) /\
  (forall x, In x (keysOf t') <-> x = "D" \/ In x (keysOf t)).
Proof.
  assert (avlInsert
            (treeABC (sampleCourse "A") (sampleCourse "B") (sampleCourse "C"))
            "D" (sampleCourse "D") =
          Some (Node "B" (sampleCourse "B") 3 (newNode "A" (sampleCourse "A"))
                  (Node "C" (sampleCourse "C") 2 Null
                     (newNode "D" (sampleCourse "D"))))) as E by reflexivity.
  split; [exact E|].
  exact (@avlInsert_size_and_keys _ _ _ _
           (Invariants_treeABC (sampleCourse "A") (sampleCourse "B")
              (sampleCourse "C")) E).
Defined.

Lemma avlInsert_height_step_witness :
  let t := treeABC (sampleCourse "A") (sampleCourse "B") (sampleCourse "C") in
  let t' := Node "B" (sampleCourse "B") 3 (newNode "A" (sampleCourse "A"))
              (Node "C" (sampleCourse "C") 2 Null
                 (newNode "D" (sampleCourse "D"))) in
  avlInsert t "D" (sampleCourse "D") = Some t' /\
  nodeHeight t <= nodeHeight t' <= nodeHeight t + 1.
Proof.
  assert (avlInsert
            (treeABC (sampleCourse "A") (sampleCourse "B") (sampleCourse "C"))
            "D" (sampleCourse "D") =
          Some (Node "B" (sampleCourse "B") 3 (newNode "A" (sampleCourse "A"))
                  (Node "C" (sampleCourse "C") 2 Null
                     (newNode "D" (sampleCourse "D"))))) as E by reflexivity.
  split; [exact E|].
  exact (@avlInsert_height_step _ _ _ _
           (Invariants_treeABC (sampleCourse "A") (sampleCourse "B")
              (sampleCourse "C")) E).
Defined.

Lemma avlInsert_idempotent_witness :
  let t := treeABC (sampleCourse "A") (sampleCourse "B") (sampleCourse "C") in
  let t' := Node "B" (sampleCourse "B") 3 (newNode "A" (sampleCourse "A"))
              (Node "C" (sampleCourse "C") 2 Null
                 (newNode "D" (sampleCourse "D"))) in
  avlInsert t "D" (sampleCourse "D") = Some t' /\
  avlInsert t' "D" (sampleCourse "D") = Some t'.
Proof.
  assert (avlInsert
            (treeABC (sampleCourse "A") (sampleCourse "B") (sampleCourse "C"))
            "D" (sampleCourse "D") =
          Some (Node "B" (sampleCourse "B") 3 (newNode "A" (sampleCourse "A"))
                  (Node "C" (sampleCourse "C") 2 Null
                     (newNode "D" (sampleCourse "D"))))) as E by reflexivity.
  split; [exact E|].
  exact (@avlInsert_idempotent _ _ _ _
           (Invariants_treeABC (sampleCourse "A") (sampleCourse "B")
              (sampleCourse "C")) E).
Defined.

Lemma listing_independent_of_insert_order_witness :
  let a := ("A", sampleCourse "A") in
  let b := ("B", sampleCourse "B") in
  let t := Node "A" (sampleCourse "A") 2 Null (newNode "B" (sampleCourse "B")) in
  let t' := Node "B" (sampleCourse "B") 2 (newNode "A" (sampleCourse "A")) Null in
  insertAll Null [a; b] = Some t /\ insertAll Null [b; a] = Some t' /\
  visitInOrder t = visitInOrder t' /\ avlInOrder t = avlInOrder t' /\
  printAllCourses t = printAllCourses t'.
Proof.
  assert (NoDup (map fst [("A", sampleCourse "A"); ("B", sampleCourse "B")]))
    as ND by (simpl; repeat constructor; simpl; intuition discriminate).
  assert (insertAll Null [("A", sampleCourse "A"); ("B", sampleCourse "B")] =
          Some (Node "A" (sampleCourse "A") 2 Null
                  (newNode "B" (sampleCourse "B")))) as E by reflexivity.
  assert (insertAll Null [("B", sampleCourse "B"); ("A", sampleCourse "A")] =
          Some (Node "B" (sampleCourse "B") 2
                  (newNode "A" (sampleCourse "A")) Null)) as E' by reflexivity.
  split; [exact E|]. split; [exact E'|].
  exact (@listing_independent_of_insert_order _ _ _ _ ND
           (perm_swap _ _ []) E E').
Defined.

Lemma rotations_inverse_witness :
  let t := Node "B" (sampleCourse "B") 2 (newNode "A" (sampleCourse "A")) Null in
  let t' := Node "A" (sampleCourse "A") 2 Null (newNode "B" (sampleCourse "B")) in
  HeightCorrect t /\
  (rotateRight t = Some t' -> rotateLeft t' = Some t) /\
  (rotateLeft t = Some t' -> rotateRight t' = Some t).
Proof.
  assert (HeightCorrect
            (Node "B" (sampleCourse "B") 2 (newNode "A" (sampleCourse "A"))
               Null)) as HC by (repeat split; simpl; lia).
  split; [exact HC|].
  exact (@rotations_inverse _
           (Node "A" (sampleCourse "A") 2 Null
              (newNode "B" (sampleCourse "B"))) HC).
Defined.

Lemma size_below_power_of_height_witness :
  let t := treeABC (sampleCourse "A") (sampleCourse "B") (sampleCourse "C") in
  HeightCorrect t /\ Z.of_nat (size t) + 1 <= 2 ^ nodeHeight t.
Proof.
  assert (HeightCorrect
            (treeABC (sampleCourse "A") (sampleCourse "B") (sampleCourse "C")))
    as HC by (repeat split; simpl; lia).
  split; [exact HC|]. exact (size_below_power_of_height _ HC).
Defined.

Lemma avlInsert_rebalances_once_witness :
  let t := Node "C" (sampleCourse "C") 2 (newNode "B" (sampleCourse "B")) Null in
  let t' := treeABC (sampleCourse "A") (sampleCourse "B") (sampleCourse "C") in
  let log := [RightRotation "C"] in
  Invariants t /\
  avlInsertLog t "A" (sampleCourse "A") = Some (t', log) /\
  (log = [] \/
   (exists c, rotationCase log = Some c) /\ nodeHeight t' = nodeHeight t).
Proof.
  assert (Invariants (Node "C" (sampleCourse "C") 2
                        (newNode "B" (sampleCourse "B")) Null)) as Inv
    by (repeat split; simpl; lia).
  assert (avlInsertLog (Node "C" (sampleCourse "C") 2
                          (newNode "B" (sampleCourse "B")) Null)
            "A" (sampleCourse "A") =
          Some (treeABC (sampleCourse "A") (sampleCourse "B")
                  (sampleCourse "C"), [RightRotation "C"])) as E
    by reflexivity.
  split; [exact Inv|]. split; [exact E|].
  exact (@avlInsert_rebalances_once _ _ _ _ _ Inv E).
Defined.

Lemma loaded_course_is_reported_witness :
  let c100 := mkCourse "X100" "Intro" [] in
  let c200 := mkCourse "X200" "Next" ["X100"] in
  let root := Node "X100" c100 2 Null (newNode "X200" c200) in
  loadCoursesFromFile (Some ["X100,Intro"; "# note"; "X200,Next,x100"])
    "courses.csv" Null =
    Some (true, root,
          [Cout ("Loaded 2 courses from 'courses.csv'." ++ newline)]) /\
  true = true /\
  (exists h l r, avlFind root "X200" = Some (Node "X200" c200 h l r)) /\
  exists rest,
    printCourseInfo root " x200 " =
    ("Course: " ++ "X200" ++ " - " ++ "Next" ++ newline ++ rest)%string.
Proof.
  assert (loadCoursesFromFile
            (Some ["X100,Intro"; "# note"; "X200,Next,x100"])
            "courses.csv" Null =
          Some (true,
                Node "X100" (mkCourse "X100" "Intro" []) 2 Null
                  (newNode "X200" (mkCourse "X200" "Next" ["X100"])),
                [Cout ("Loaded 2 courses from 'courses.csv'." ++ newline)]))
    as E by (vm_compute; reflexivity).
  split; [exact E|].
  apply (@loaded_course_is_reported _ _ _ _ _ _
           [mkCourse "X100" "Intro" []] []
           (mkCourse "X200" "Next" ["X100"]) " x200 " E).
  - vm_compute. reflexivity.
  - simpl. tauto.
  - vm_compute. reflexivity.
Defined.

Lemma failed_load_discards_courses_witness :
  let files : Files := fun _ => None in
  let s := mkSession
             (treeABC (sampleCourse "A") (sampleCourse "B") (sampleCourse "C"))
             true in
  exists out,
    mainLoop files [" 1 "; "missing.csv"; "2"] s =
    (r <- mainLoop files ["2"] (mkSession Null false) ;;
     Some (Cout printMenu :: out ++ fst r, snd r)).
Proof.
  apply (@failed_load_discards_courses (fun _ => None) " 1 " "missing.csv"
           ["2"]).
  - reflexivity.
  - discriminate.
  - left. reflexivity.
Defined.
